(** * Drop detection (src/utils/dropDetection.ts)

    A shallow embedding of the drop detector and of its IndexedDB result
    cache, followed by the properties of the detector.

    JavaScript numbers are modelled as exact rationals ([Q]): comparisons
    and arithmetic are those of the source, without rounding, NaN or
    infinities.  The one transcendental function, [squash], lands in the
    reals, so the [confidence] of a result is an [R].  [Math.floor] yields
    an integer ([Z]).  [Date.now()] reads an integer clock. *)

From Stdlib Require Import ZArith QArith Qround Qabs Qminmax Reals Lra Lqa Lia.
From Stdlib Require Import Qreals Sorted Permutation Ascii.
From stdpp Require Import gmap strings pretty list sorting.

Ltac qlra := unfold Qdiv; cbn [Qinv Qnum Qden]; Lqa.lra.
Ltac rlra := Lra.lra.

(** ** Numbers *)

Module Num.

(** [x < y] and [x <= y] on JavaScript numbers. *)
Definition ltb (x y : Q) : bool := negb (Qle_bool y x).
Definition leb (x y : Q) : bool := Qle_bool x y.

(** [cond ? bonus : 0], the shape of every conditional score bonus. *)
Definition bonus (cond : bool) (b : Q) : Q := if cond then b else 0%Q.

End Num.

(** ** Data model (src/types/index.ts)

    Only the fields the detector reads are kept, plus [duration] and
    [timbre], which the feature set carries along. *)

Record SpotifyTrack := {
  id : string;
  name : string;
  duration_ms : Q;
}.

(** An element of [AudioAnalysis['sections']]. *)
Module Sec.
Record t := mk {
  start : Q;
  duration : Q;
  loudness : Q;
  tempo : Q;
  tempo_confidence : Q;
}.
End Sec.

(** An element of [AudioAnalysis['segments']]. *)
Module Seg.
Record t := mk {
  start : Q;
  duration : Q;
  loudness_max : Q;
  timbre : list Q;
}.
End Seg.

(** An element of [AudioAnalysis['bars']]. *)
Module Bar.
Record t := mk {
  start : Q;
  duration : Q;
  confidence : Q;
}.
End Bar.

(** [interface DropCandidate { start: number; score: number; }] *)
Module Cand.
Record t := mk {
  start : Q;
  score : Q;
}.
End Cand.

(** The provider's response is untyped JSON: a field of the response may
    be absent ([None]), and reading [.length], [.map] or iterating over an
    absent field throws a [TypeError]. *)
Record AudioAnalysis := {
  sections : option (list Sec.t);
  segments : option (list Seg.t);
  bars : option (list Bar.t);
}.

Record DropAnalysis := {
  trackId : string;
  dropStart : Z;
  confidence : R;
  method : string;
  previewLength : Q;
  analysisTimestamp : Z;
}.

(** ** Utility helpers *)

(** [dist < minDist], where [minDist] starts at [Infinity] ([None]). *)
Definition belowMin (dist : Q) (minDist : option Q) : bool :=
  match minDist with
  | None => true
  | Some m => Num.ltb dist m
  end.

(** The [for (const bar of bars)] loop of [snapToDownbeat], with its two
    mutable locals [closest] and [minDist]. *)
Fixpoint snapLoop (targetSec : Q) (bars : list Bar.t)
    (closest : Q) (minDist : option Q) : Q :=
  match bars with
  | [] => closest
  | bar :: rest =>
      if Num.ltb (Bar.confidence bar) 0.5 then
        snapLoop targetSec rest closest minDist
      else
        let dist := Qabs (Bar.start bar - targetSec) in
        if belowMin dist minDist then
          snapLoop targetSec rest (Bar.start bar) (Some dist)
        else
          snapLoop targetSec rest closest minDist
  end.

Definition snapToDownbeat (targetSec : Q) (bars : list Bar.t) : Q :=
  snapLoop targetSec bars targetSec None.

(** [[...nums].sort((a, b) => a - b)]: the numbers in ascending order. *)
Fixpoint insertNum (x : Q) (sorted : list Q) : list Q :=
  match sorted with
  | [] => [x]
  | y :: rest => if Num.leb x y then x :: sorted else y :: insertNum x rest
  end.

Definition sortNum (nums : list Q) : list Q := foldr insertNum [] nums.

Definition median (nums : list Q) : Q :=
  match nums with
  | [] => 0%Q
  | _ =>
      let sorted := sortNum nums in
      let mid := (length sorted / 2)%nat in
      if Nat.odd (length sorted) then nth mid sorted 0%Q
      else ((nth (mid - 1) sorted 0 + nth mid sorted 0) / 2)%Q
  end.

(** [1 / (1 + Math.exp(-0.6 * (x - 5)))], over the reals.  In the double
    arithmetic of the code the value rounds to exactly 1 for scores from
    about 67 on, so of this function only what is not strict (its values
    lie in [0, 1], it does not invert the order of scores) is read as a
    property of the code. *)
Definition squash (x : Q) : R := (1 / (1 + exp (- 0.6 * (Q2R x - 5))))%R.

(** ** Detection primitives *)

(** [if (!best || score > best.score) best = { start, score }] *)
Definition pick (best : option Cand.t) (c : Cand.t) : option Cand.t :=
  match best with
  | None => Some c
  | Some b => if Num.ltb (Cand.score b) (Cand.score c) then Some c else best
  end.

(** The first two [continue] guards of both scanners. *)
Definition outsideWindow (s e start : Q) : bool :=
  Num.ltb start s || Num.ltb e start.

(** The score [findDropInSections] computes for [cur = sections[i]] with
    [prev = sections[i - 1]].  When [span] is 0 the only in-window start is
    [s] itself, and the ratio 0/0 fails both comparisons here (it is 0) as
    it does in the source (it is NaN). *)
Definition sectionScore (s span : Q) (prev cur : Sec.t) : Q :=
  let score := ((Sec.loudness cur + 60) / 10)%Q in
  let score := (score + Sec.tempo_confidence cur * 4)%Q in
  let score :=
    if Num.ltb (Sec.loudness prev + 2) (Sec.loudness cur)
    then (score + 4)%Q else score in
  let posRatio := ((Sec.start cur - s) / span)%Q in
  let score :=
    if Num.ltb 0.2 posRatio && Num.ltb posRatio 0.8
    then (score + 2)%Q else score in
  score.

(** The loop [for (let i = 1; i < sections.length; i++)], entered with
    [prev = sections[i - 1]] and [rest = sections.slice(i)]. *)
Fixpoint sectionsLoop (s e thresh : Q) (prev : Sec.t) (rest : list Sec.t)
    (best : option Cand.t) : option Cand.t :=
  match rest with
  | [] => best
  | cur :: rest' =>
      if outsideWindow s e (Sec.start cur) then
        sectionsLoop s e thresh cur rest' best
      else if Num.ltb (Sec.loudness cur) thresh then
        sectionsLoop s e thresh cur rest' best
      else
        let score := sectionScore s (e - s) prev cur in
        sectionsLoop s e thresh cur rest'
          (pick best (Cand.mk (Sec.start cur) score))
  end.

Definition findDropInSections (sections : list Sec.t)
    (startMs endMs thresh : Q) : option Cand.t :=
  let s := (startMs / 1000)%Q in
  let e := (endMs / 1000)%Q in
  match sections with
  | [] => None
  | first :: rest => sectionsLoop s e thresh first rest None
  end.

Definition segmentScore (prev cur : Seg.t) : Q :=
  let loudJump := (Seg.loudness_max cur - Seg.loudness_max prev)%Q in
  (Qmax 0 loudJump * 3 + (Seg.loudness_max cur + 60) / 15)%Q.

Fixpoint segmentsLoop (s e thresh : Q) (prev : Seg.t) (rest : list Seg.t)
    (best : option Cand.t) : option Cand.t :=
  match rest with
  | [] => best
  | cur :: rest' =>
      if outsideWindow s e (Seg.start cur) then
        segmentsLoop s e thresh cur rest' best
      else if Num.ltb (Seg.loudness_max cur) thresh then
        segmentsLoop s e thresh cur rest' best
      else
        let score := segmentScore prev cur in
        segmentsLoop s e thresh cur rest'
          (pick best (Cand.mk (Seg.start cur) score))
  end.

Definition findDropInSegments (segments : list Seg.t)
    (startMs endMs thresh : Q) : option Cand.t :=
  let s := (startMs / 1000)%Q in
  let e := (endMs / 1000)%Q in
  match segments with
  | [] => None
  | first :: rest => segmentsLoop s e thresh first rest None
  end.

(** [seg.start >= s && seg.start <= e] *)
Definition inRangeb (s e : Q) (seg : Seg.t) : bool :=
  Num.leb s (Seg.start seg) && Num.leb (Seg.start seg) e.

(** The reducer [(a, b) => (b.loudness_max > a.loudness_max ? b : a)]. *)
Definition louder (a b : Seg.t) : Seg.t :=
  if Num.ltb (Seg.loudness_max a) (Seg.loudness_max b) then b else a.

Definition loudestSegmentInRange (segments : list Seg.t)
    (startMs endMs : Q) : option Cand.t :=
  let s := (startMs / 1000)%Q in
  let e := (endMs / 1000)%Q in
  let inRange := List.filter (inRangeb s e) segments in
  match inRange with
  | [] => None
  | first :: rest =>
      let loudest := foldl louder first rest in
      Some (Cand.mk (Seg.start loudest) 0.6)
  end.

(** ** Effects

    [detectDrop] reads the clock, talks to IndexedDB and to the analysis
    provider, and may throw.  A computation takes the world it runs in and
    returns either a value or a thrown error, with the world it leaves. *)

Inductive exn :=
  | TypeError       (* a property read on [undefined] *)
  | RequestError.   (* [spotifyApiCall] rejected: network, auth, HTTP status *)

Inductive result (A : Type) :=
  | Ok (a : A)
  | Throw (e : exn).
Arguments Ok {A} a.
Arguments Throw {A} e.

(** [{ ...dropAnalysis, cacheKey }], the object kept in the object store. *)
Record CacheEntry := {
  value : DropAnalysis;
  cacheKey : string;
}.

Record World := {
  (** the object store [dropAnalysis], whose key path is [cacheKey] *)
  store : gmap string CacheEntry;
  (** whether [indexedDB.open] and the requests on the store succeed *)
  idbOpens : bool;
  (** what [spotifyApiCall(endpoint)] resolves to or rejects with *)
  spotify : string -> result AudioAnalysis;
  (** milliseconds a provider call takes *)
  latency : Z;
  (** [Date.now()] *)
  clock : Z;
  (** the endpoints requested from the provider, latest first *)
  requests : list string;
}.

Definition M (A : Type) : Type := World -> result A * World.

Definition ret {A} (a : A) : M A := fun w => (Ok a, w).

Definition throw {A} (e : exn) : M A := fun w => (Throw e, w).

Definition bind {A B} (m : M A) (k : A -> M B) : M B :=
  fun w =>
    match m w with
    | (Ok a, w') => k a w'
    | (Throw e, w') => (Throw e, w')
    end.

Notation "x <- m ;; k" := (bind m (fun x => k))
  (at level 100, m at next level, right associativity).

(** [try { body } catch (err) { handler }] *)
Definition tryCatch {A} (body : M A) (handler : exn -> M A) : M A :=
  fun w =>
    match body w with
    | (Ok a, w') => (Ok a, w')
    | (Throw e, w') => handler e w'
    end.

Definition dateNow : M Z := fun w => (Ok (clock w), w).

(** Reading into a field of the response that may be absent. *)
Definition property {A} (field : option A) : M A :=
  match field with
  | Some a => ret a
  | None => throw TypeError
  end.

(** The world once a provider call has settled. *)
Definition afterRequest (endpoint : string) (w : World) : World :=
  {| store := store w; idbOpens := idbOpens w; spotify := spotify w;
     latency := latency w; clock := (clock w + latency w)%Z;
     requests := endpoint :: requests w |}.

Definition spotifyApiCall (endpoint : string) : M AudioAnalysis :=
  fun w => (spotify w endpoint, afterRequest endpoint w).

(** [tx.objectStore(STORE_NAME).get(cacheKey)], with [req.result || null]. *)
Definition storeGet (key : string) (w : World) : option DropAnalysis :=
  value <$> store w !! key.

(** [tx.objectStore(STORE_NAME).put(a)] *)
Definition storePut (a : CacheEntry) (w : World) : World :=
  {| store := <[cacheKey a := a]> (store w); idbOpens := idbOpens w;
     spotify := spotify w; latency := latency w; clock := clock w;
     requests := requests w |}.

(** ** Helper builders *)

Definition buildResult (track : SpotifyTrack) (analysis : AudioAnalysis)
    (candidate : Cand.t) (method : string) (previewLength : Q)
    (confidenceOverride : option R) : M DropAnalysis :=
  bars <- property (bars analysis) ;;
  let snapped := snapToDownbeat (Cand.start candidate) bars in
  let confidence :=
    match confidenceOverride with
    | Some c => c
    | None => squash (Cand.score candidate)
    end in
  now <- dateNow ;;
  ret {| trackId := id track;
         dropStart := Qfloor (snapped * 1000);
         confidence := confidence;
         method := method;
         previewLength := previewLength;
         analysisTimestamp := now |}.

Definition fallbackDrop (track : SpotifyTrack) (previewLength : Q)
    (confidence : R) (method : string) : M DropAnalysis :=
  now <- dateNow ;;
  ret {| trackId := id track;
         dropStart := Qfloor (duration_ms track * 0.3);
         confidence := confidence;
         method := method;
         previewLength := previewLength;
         analysisTimestamp := now |}.

(** ** Core analysis *)

Definition searchStartMs (durMs : Q) : Q := (durMs * 0.15)%Q.

Definition searchEndMs (durMs : Q) : Q :=
  (durMs * (if Num.ltb durMs 240000 then 0.7 else 0.8))%Q.

Definition analyzeForDrop (track : SpotifyTrack) (analysis : AudioAnalysis)
    (loudnessOffset previewLength : Q) : M DropAnalysis :=
  let durMs := duration_ms track in
  let searchStartMs := searchStartMs durMs in
  let searchEndMs := searchEndMs durMs in
  segs <- property (segments analysis) ;;
  let medianLoud := median (map Seg.loudness_max segs) in
  let dynThreshold := (medianLoud + loudnessOffset)%Q in
  secs <- property (sections analysis) ;;
  match findDropInSections secs searchStartMs searchEndMs dynThreshold with
  | Some sectionHit =>
      buildResult track analysis sectionHit "sections" previewLength None
  | None =>
  match findDropInSegments segs searchStartMs searchEndMs dynThreshold with
  | Some segmentHit =>
      buildResult track analysis segmentHit "segments" previewLength None
  | None =>
  match loudestSegmentInRange segs searchStartMs searchEndMs with
  | Some hit =>
      buildResult track analysis hit "loudest‑segment" previewLength
        (Some 0.6%R)
  | None => fallbackDrop track previewLength 0.2%R "30‑percent"
  end end end.

(** ** Caching and the entry point *)

(** [7 * 24 * 60 * 60 * 1000] *)
Definition retentionMs : Z := (7 * 24 * 60 * 60 * 1000)%Z.

(** [cached && Date.now() - cached.analysisTimestamp < retentionMs] *)
Definition usable (cached : option DropAnalysis) (now : Z)
    : option DropAnalysis :=
  match cached with
  | None => None
  | Some c =>
      if (now - analysisTimestamp c <? retentionMs)%Z then Some c else None
  end.

Section Orchestrator.

(** The conversion of a number to a string that a template literal
    performs ([Number::toString] of the JavaScript runtime). *)
Variable numberToString : Q -> string.

Definition getCacheKey (trackId : string)
    (loudnessOffset previewLength : Q) : string :=
  trackId +:+ "|" +:+ numberToString loudnessOffset
          +:+ "|" +:+ numberToString previewLength.

(** A failure to open the database or the transaction is caught and
    reported as [null]. *)
Definition getCachedAnalysis (trackId : string)
    (loudnessOffset previewLength : Q) : M (option DropAnalysis) :=
  fun w =>
    if idbOpens w then
      let cacheKey := getCacheKey trackId loudnessOffset previewLength in
      (Ok (storeGet cacheKey w), w)
    else (Ok None, w).

(** A failure to open the database or the transaction is caught and
    dropped. *)
Definition cacheAnalysis (a : CacheEntry) : M unit :=
  fun w =>
    if idbOpens w then (Ok tt, storePut a w)
    else (Ok tt, w).

Definition detectDrop (track : SpotifyTrack)
    (loudnessOffset previewLength : Q) : M DropAnalysis :=
  tryCatch
    (let cacheKey := getCacheKey (id track) loudnessOffset previewLength in
     cached <- getCachedAnalysis (id track) loudnessOffset previewLength ;;
     now <- dateNow ;;
     match usable cached now with
     | Some hit => ret hit
     | None =>
         analysis <- spotifyApiCall ("/audio-analysis/" +:+ id track) ;;
         dropAnalysis <-
           analyzeForDrop track analysis loudnessOffset previewLength ;;
         _ <- cacheAnalysis {| value := dropAnalysis; cacheKey := cacheKey |} ;;
         ret dropAnalysis
     end)
    (fun err => fallbackDrop track previewLength 0.3%R "error").

End Orchestrator.

(** ** Vocabulary of the properties *)

(** Both scanners walk the adjacent pairs [(items[i - 1], items[i])] of
    their input, from [i = 1] on, and keep the first candidate of highest
    score among the items that pass their guards. *)
Section AdjacentScan.

Context {A : Type}.
Variable qualifies : A -> bool.
Variable candidate : A -> A -> Cand.t.

Fixpoint scanLoop (prev : A) (rest : list A) (best : option Cand.t)
    : option Cand.t :=
  match rest with
  | [] => best
  | cur :: rest' =>
      scanLoop cur rest'
        (if qualifies cur then pick best (candidate prev cur) else best)
  end.

Definition scan (items : list A) : option Cand.t :=
  match items with
  | [] => None
  | first :: rest => scanLoop first rest None
  end.

(** The item at index [i + 1] passes the guards and yields [c]. *)
Definition hitAt (items : list A) (i : nat) (c : Cand.t) : Prop :=
  exists prev cur,
    items !! i = Some prev /\ items !! S i = Some cur /\
    qualifies cur = true /\ c = candidate prev cur.

(** [r] is the first candidate of highest score, if there is any. *)
Definition firstBest (items : list A) (r : option Cand.t) : Prop :=
  match r with
  | None => forall i c, ~ hitAt items i c
  | Some b =>
      exists i, hitAt items i b /\
        forall j c, hitAt items j c ->
          (Cand.score c <= Cand.score b)%Q /\
          ((j < i)%nat -> (Cand.score c < Cand.score b)%Q)
  end.

End AdjacentScan.

(** A bar the snapper considers: [bar.confidence < 0.5] is false. *)
Definition confident (bar : Bar.t) : Prop := (0.5 <= Bar.confidence bar)%Q.

(** The endpoint [detectDrop] requests for a track. *)
Definition endpointOf (track : SpotifyTrack) : string :=
  "/audio-analysis/" +:+ id track.

(** The guards of [findDropInSections], negated. *)
Definition sectionQualifies (s e thresh : Q) (cur : Sec.t) : bool :=
  negb (outsideWindow s e (Sec.start cur)) &&
  negb (Num.ltb (Sec.loudness cur) thresh).

Definition sectionCandidate (s e : Q) (prev cur : Sec.t) : Cand.t :=
  Cand.mk (Sec.start cur) (sectionScore s (e - s) prev cur).

(** The guards of [findDropInSegments], negated. *)
Definition segmentQualifies (s e thresh : Q) (cur : Seg.t) : bool :=
  negb (outsideWindow s e (Seg.start cur)) &&
  negb (Num.ltb (Seg.loudness_max cur) thresh).

Definition segmentCandidate (prev cur : Seg.t) : Cand.t :=
  Cand.mk (Seg.start cur) (segmentScore prev cur).

(** Every bar the snapper may choose starts within the track. *)
Definition barsWithin (durMs : Q) (analysis : AudioAnalysis) : Prop :=
  forall bs b,
    bars analysis = Some bs -> b ∈ bs -> (0.5 <= Bar.confidence b)%Q ->
    (0 <= Bar.start b)%Q /\ (Bar.start b * 1000 <= durMs)%Q.

Definition inBounds (durMs : Q) (r : DropAnalysis) : Prop :=
  (0 <= dropStart r)%Z /\ (inject_Z (dropStart r) <= durMs)%Q /\
  (0 <= confidence r <= 1)%R.

(** ** The scanners as the specification words them

    The specification adds to the section score a bonus for a tempo
    confidence above 0.7, and scores a segment against the qualifying
    segment just before it, with bonuses for the first two timbre
    coefficients and for a jump above 3 dB.  It names no magnitudes: they
    are parameters here.  Everything else is as in the source. *)

Definition claimedSectionCandidate (tempoBonus s e : Q) (prev cur : Sec.t)
    : Cand.t :=
  Cand.mk (Sec.start cur)
    (sectionScore s (e - s) prev cur
     + Num.bonus (Num.ltb 0.7 (Sec.tempo_confidence cur)) tempoBonus)%Q.

Definition claimedFindDropInSections (tempoBonus : Q) (sections : list Sec.t)
    (startMs endMs thresh : Q) : option Cand.t :=
  let s := (startMs / 1000)%Q in
  let e := (endMs / 1000)%Q in
  scan (sectionQualifies s e thresh) (claimedSectionCandidate tempoBonus s e)
    sections.

(** "first two timbre coefficients, if present, each contribute a small
    multiplier of their absolute value" *)
Definition claimedTimbreBonus (multiplier : Q) (timbre : list Q) : Q :=
  match timbre with
  | [] => 0%Q
  | [t0] => (multiplier * Qabs t0)%Q
  | t0 :: t1 :: _ => (multiplier * Qabs t0 + multiplier * Qabs t1)%Q
  end.

(** [prev] is the qualifying segment just before [cur]; a segment without
    one has no jump. *)
Definition claimedSegmentScore (multiplier flat : Q) (prev : option Seg.t)
    (cur : Seg.t) : Q :=
  let loudJump :=
    match prev with
    | Some p => (Seg.loudness_max cur - Seg.loudness_max p)%Q
    | None => 0%Q
    end in
  (Qmax 0 loudJump * 3 + (Seg.loudness_max cur + 60) / 15
   + claimedTimbreBonus multiplier (Seg.timbre cur)
   + Num.bonus (Num.ltb 3 loudJump) flat)%Q.

Fixpoint claimedSegmentsLoop (multiplier flat : Q) (prev : option Seg.t)
    (qualifying : list Seg.t) (best : option Cand.t) : option Cand.t :=
  match qualifying with
  | [] => best
  | cur :: rest =>
      claimedSegmentsLoop multiplier flat (Some cur) rest
        (pick best
           (Cand.mk (Seg.start cur)
              (claimedSegmentScore multiplier flat prev cur)))
  end.

(** [scoreFirst] tells whether the first qualifying segment, which has no
    qualifying predecessor, is a candidate at all. *)
Definition claimedFindDropInSegments (multiplier flat : Q) (scoreFirst : bool)
    (segments : list Seg.t) (startMs endMs thresh : Q) : option Cand.t :=
  let s := (startMs / 1000)%Q in
  let e := (endMs / 1000)%Q in
  match List.filter (segmentQualifies s e thresh) segments with
  | [] => None
  | first :: rest =>
      if scoreFirst then
        claimedSegmentsLoop multiplier flat None (first :: rest) None
      else
        claimedSegmentsLoop multiplier flat (Some first) rest None
  end.

(** ** Inputs of the examples *)

Module Ex.

(** A 200 s track: the search window is 30 s to 140 s. *)
Definition track : SpotifyTrack :=
  {| id := "t1"; name := "Example"; duration_ms := 200000 |}.

(** Two in-window sections of equal score in the source (7.5): the
    earlier with tempo confidence 0.5, the later with 0.75. *)
Definition tiedSections : list Sec.t :=
  [ Sec.mk 0 35 (-5) 120 0.5;
    Sec.mk 35 5 (-5) 120 0.5;
    Sec.mk 40 100 (-15) 120 0.75 ].

(** A quiet segment before the window, then two loud ones inside it.
    The median loudness-max is -9 dB. *)
Definition risingSegments : list Seg.t :=
  [ Seg.mk 10 25 (-30) [];
    Seg.mk 35 5 (-9) [];
    Seg.mk 40 5 (-7) [] ].

(** With the default offset of 3 dB the section at 35 s is the section
    scanner's hit. *)
Definition analysis (bars : list Bar.t) : AudioAnalysis :=
  {| sections := Some tiedSections;
     segments := Some risingSegments;
     bars := Some bars |}.

(** A strong bar past the end of the track. *)
Definition lateBars : list Bar.t := [ Bar.mk 500 2 0.9 ].

(** A strong bar just before the window, a weak one inside it. *)
Definition earlyBars : list Bar.t := [ Bar.mk 28 2 0.9; Bar.mk 36 2 0.4 ].

(** Integers print in decimal, which is all the examples need. *)
Definition showNumber (x : Q) : string := pretty (Qfloor x).

Definition key : string := getCacheKey showNumber "t1" 3 20000.

Definition world (entries : gmap string CacheEntry) (opens : bool)
    (reply : result AudioAnalysis) (now : Z) : World :=
  {| store := entries; idbOpens := opens; spotify := fun _ => reply;
     latency := 150; clock := now; requests := [] |}.

(** A result stored at time 1000. *)
Definition stored : DropAnalysis :=
  {| trackId := "t1"; dropStart := 35000; confidence := 0.6%R;
     method := "sections"; previewLength := 20000;
     analysisTimestamp := 1000 |}.

Definition cache : gmap string CacheEntry :=
  {[ key := {| value := stored; cacheKey := key |} ]}.

End Ex.

(** ** Vocabulary of the further properties *)

(** The segment [loudestSegmentInRange] settles on, before it is turned
    into a candidate. *)
Definition loudestInRange (s e : Q) (segs : list Seg.t) : option Seg.t :=
  match List.filter (inRangeb s e) segs with
  | [] => None
  | first :: rest => Some (foldl louder first rest)
  end.

(** Whether a string contains the separator of the cache key. *)
Fixpoint hasBar (s : string) : bool :=
  match s with
  | EmptyString => false
  | String c rest => if Ascii.eqb c "|"%char then true else hasBar rest
  end.

(** ** Further examples *)

Module Ex2.

(** A section and a segment that start before the search window of
    [Ex.track]. *)
Definition earlySections : list Sec.t := [ Sec.mk 0 20 (-5) 120 0.5 ].
Definition earlySegments : list Seg.t := [ Seg.mk 10 15 (-30) [] ].

Definition earlyAnalysis : AudioAnalysis :=
  {| sections := Some earlySections;
     segments := Some earlySegments;
     bars := None |}.

(** Only a weak bar. *)
Definition weakBars : list Bar.t := [ Bar.mk 36 2 0.4 ].

(** The world in which [Ex.track] is analysed first. *)
Definition first : World :=
  Ex.world ∅ true (Ok (Ex.analysis Ex.earlyBars)) 5000.

(** A world 4 s later with the store the first run left, where the
    provider has become unreachable. *)
Definition later : World :=
  {| store := store (snd (detectDrop Ex.showNumber Ex.track 3 20000 first));
     idbOpens := true;
     spotify := fun _ => Throw RequestError;
     latency := 150;
     clock := 9000;
     requests := [] |}.

End Ex2.

(** * The analysis provider's client (src/utils/spotify.ts)

    The functions behind [spotifyApiCall], which [detectDrop] awaits:
    token storage in [localStorage], the refresh of an expired token, and
    the request with its single retry.  [fetch] answers from a script of
    exchanges that the world holds; a fetch beyond the script is rejected,
    as is one whose exchange has no response. *)

Module Spotify.

Definition SPOTIFY_TOKEN_URL : string :=
  "https://accounts.spotify.com/api/token".
Definition SPOTIFY_API_BASE : string := "https://api.spotify.com/v1".

(** The errors the client throws. *)
Inductive Err :=
  | NoCodeVerifier          (* 'Code verifier not found' *)
  | ExchangeFailed (status : Z)
                            (* `Failed to exchange code for token: ${status}` *)
  | NoAccessToken           (* 'No access token available' *)
  | NoRefreshToken          (* 'No refresh token available' *)
  | RefreshFailed           (* 'Failed to refresh token' *)
  | ApiError (status : Z) (message : string)
                            (* `Spotify API error: ${status} - ${message}` *)
  | RetryError (status : Z) (* `Spotify API error: ${status}` *)
  | AuthenticationFailed    (* 'Authentication failed. Please log in again.' *)
  | FetchRejected           (* [fetch] rejected: no connection *)
  | JsonRejected.           (* [response.json()] rejected: not JSON *)

Inductive res (A : Type) :=
  | Return (a : A)
  | Raise (e : Err).
Arguments Return {A} a.
Arguments Raise {A} e.

Record Request := {
  url : string;
  (** the [Authorization] header *)
  authorization : option string;
  (** the form fields of the body *)
  form : list (string * string);
}.

(** What the client takes from its surroundings. *)
Class Runtime := {
  (** [import.meta.env.VITE_SPOTIFY_CLIENT_ID] *)
  clientId : string;
  (** [import.meta.env.VITE_SPOTIFY_REDIRECT_URI] *)
  redirectUri : string;
  (** [parseInt]; [None] is NaN *)
  parseInt : string -> option Z;
  (** [Number.prototype.toString] *)
  numberToString : Z -> string;
  (** a parsed JSON document, an object, with the properties the client
      reads from it; [None] is [undefined] *)
  Json : Type;
  access_token : Json -> option string;
  refresh_token : Json -> option string;
  expires_in : Json -> option Z;
  (** [errorData.error?.message] *)
  error_message : Json -> option string;
}.

Section Client.

Context `{Runtime}.

Record Response := {
  status : Z;
  (** what [response.json()] resolves to; [None] when it rejects *)
  json : option Json;
}.

(** [response.ok]: the status is in the range 200-299. *)
Definition ok (r : Response) : bool :=
  (200 <=? status r)%Z && (status r <=? 299)%Z.

Record Exchange := {
  (** milliseconds until the fetch settles *)
  took : Z;
  (** the response; [None] when the fetch rejects *)
  reply : option Response;
}.

Record St := {
  localStorage : gmap string string;
  sessionStorage : gmap string string;
  (** [Date.now()] *)
  now : Z;
  (** the exchanges to come *)
  network : list Exchange;
  (** the requests sent, latest first *)
  sent : list Request;
}.

Definition M (A : Type) : Type := St -> res A * St.

Definition ret {A} (a : A) : M A := fun st => (Return a, st).

Definition raise {A} (e : Err) : M A := fun st => (Raise e, st).

Definition bind {A B} (m : M A) (k : A -> M B) : M B :=
  fun st =>
    match m st with
    | (Return a, st') => k a st'
    | (Raise e, st') => (Raise e, st')
    end.

Definition tryCatch {A} (body : M A) (handler : Err -> M A) : M A :=
  fun st =>
    match body st with
    | (Return a, st') => (Return a, st')
    | (Raise e, st') => handler e st'
    end.

(** A string the code tests for truth: [null], [undefined] and the empty
    string count as absent. *)
Definition truthy (v : option string) : option string :=
  match v with
  | Some EmptyString => None
  | other => other
  end.

(** A string or [undefined] turned into a string, as [setItem] and a
    template literal do. *)
Definition jsString (v : option string) : string := default "undefined" v.

Definition getItem (key : string) : M (option string) :=
  fun st => (Return (localStorage st !! key), st).

Definition setItem (key value : string) : M unit :=
  fun st =>
    (Return tt,
     {| localStorage := <[key := value]> (localStorage st);
        sessionStorage := sessionStorage st; now := now st;
        network := network st; sent := sent st |}).

Definition getSessionItem (key : string) : M (option string) :=
  fun st => (Return (sessionStorage st !! key), st).

Definition removeSessionItem (key : string) : M unit :=
  fun st =>
    (Return tt,
     {| localStorage := localStorage st;
        sessionStorage := delete key (sessionStorage st); now := now st;
        network := network st; sent := sent st |}).

Definition dateNow : M Z := fun st => (Return (now st), st).

Definition fetch (request : Request) : M Response :=
  fun st =>
    match network st with
    | [] =>
        (Raise FetchRejected,
         {| localStorage := localStorage st;
            sessionStorage := sessionStorage st; now := now st;
            network := []; sent := request :: sent st |})
    | exchange :: rest =>
        let st' :=
          {| localStorage := localStorage st;
             sessionStorage := sessionStorage st;
             now := (now st + took exchange)%Z;
             network := rest; sent := request :: sent st |} in
        match reply exchange with
        | Some response => (Return response, st')
        | None => (Raise FetchRejected, st')
        end
    end.

(** [await response.json()] *)
Definition readJson (response : Response) : M Json :=
  match json response with
  | Some document => ret document
  | None => raise JsonRejected
  end.

Definition logout : M unit :=
  fun st =>
    (Return tt,
     {| localStorage :=
          delete "spotify_token_expires"
            (delete "spotify_refresh_token"
               (delete "spotify_access_token" (localStorage st)));
        sessionStorage := delete "spotify_code_verifier" (sessionStorage st);
        now := now st; network := network st; sent := sent st |}).

(** [Date.now() < parseInt(tokenExpires)]; a comparison with NaN fails. *)
Definition before (t : Z) (expires : string) : bool :=
  match parseInt expires with
  | Some e => (t <? e)%Z
  | None => false
  end.

(** [Date.now() >= parseInt(tokenExpires)]; a comparison with NaN fails. *)
Definition reached (t : Z) (expires : string) : bool :=
  match parseInt expires with
  | Some e => (e <=? t)%Z
  | None => false
  end.

Definition isAuthenticated (st : St) : bool :=
  match truthy (localStorage st !! "spotify_access_token"),
        truthy (localStorage st !! "spotify_token_expires") with
  | Some _, Some tokenExpires => before (now st) tokenExpires
  | _, _ => false
  end.

(** [(Date.now() + tokenData.expires_in * 1000).toString()] *)
Definition expiryString (t : Z) (expiresIn : option Z) : string :=
  match expiresIn with
  | Some seconds => numberToString (t + seconds * 1000)
  | None => "NaN"
  end.

Definition exchangeCodeForToken (code : string) : M Json :=
  bind (getSessionItem "spotify_code_verifier") (fun codeVerifier =>
  match truthy codeVerifier with
  | None => raise NoCodeVerifier
  | Some codeVerifier =>
      bind (fetch {| url := SPOTIFY_TOKEN_URL;
                     authorization := None;
                     form := [("client_id", clientId);
                              ("grant_type", "authorization_code");
                              ("code", code);
                              ("redirect_uri", redirectUri);
                              ("code_verifier", codeVerifier)] |})
        (fun response =>
      if negb (ok response) then raise (ExchangeFailed (status response))
      else
        bind (readJson response) (fun tokenData =>
        bind (setItem "spotify_access_token"
                (jsString (access_token tokenData))) (fun _ =>
        bind (match truthy (refresh_token tokenData) with
              | Some newRefresh => setItem "spotify_refresh_token" newRefresh
              | None => ret tt
              end) (fun _ =>
        bind dateNow (fun t =>
        bind (setItem "spotify_token_expires"
                (expiryString t (expires_in tokenData))) (fun _ =>
        bind (removeSessionItem "spotify_code_verifier") (fun _ =>
        ret tokenData)))))))
  end).

Definition refreshAccessToken : M (option string) :=
  bind (getItem "spotify_refresh_token") (fun refreshToken =>
  match truthy refreshToken with
  | None => raise NoRefreshToken
  | Some refreshToken =>
      bind (fetch {| url := SPOTIFY_TOKEN_URL;
                     authorization := None;
                     form := [("grant_type", "refresh_token");
                              ("refresh_token", refreshToken);
                              ("client_id", clientId)] |})
        (fun response =>
      if negb (ok response) then
        bind logout (fun _ => raise RefreshFailed)
      else
        bind (readJson response) (fun tokenData =>
        bind (setItem "spotify_access_token"
                (jsString (access_token tokenData))) (fun _ =>
        bind dateNow (fun t =>
        bind (setItem "spotify_token_expires"
                (expiryString t (expires_in tokenData))) (fun _ =>
        bind (match truthy (refresh_token tokenData) with
              | Some newRefresh => setItem "spotify_refresh_token" newRefresh
              | None => ret tt
              end) (fun _ =>
        ret (access_token tokenData)))))))
  end).

Definition getValidAccessToken : M (option string) :=
  bind (getItem "spotify_access_token") (fun accessToken =>
  bind (getItem "spotify_token_expires") (fun tokenExpires =>
  match truthy accessToken, truthy tokenExpires with
  | Some accessToken, Some tokenExpires =>
      bind dateNow (fun t =>
      if reached t tokenExpires then refreshAccessToken
      else ret (Some accessToken))
  | _, _ => raise NoAccessToken
  end)).

(** The request [spotifyApiCall] sends with a token. *)
Definition apiRequest (endpoint : string) (token : option string) : Request :=
  {| url := SPOTIFY_API_BASE +:+ endpoint;
     authorization := Some ("Bearer " +:+ jsString token);
     form := [] |}.

(** [errorData.error?.message || 'Unknown error'], where [errorData] is
    the empty object when the body is not JSON. *)
Definition errorText (response : Response) : string :=
  match json response with
  | Some errorData =>
      match truthy (error_message errorData) with
      | Some message => message
      | None => "Unknown error"
      end
  | None => "Unknown error"
  end.

(** [spotifyApiCall(endpoint)], without request options.  Its outer
    [catch] logs the error and throws it again. *)
Definition spotifyApiCall (endpoint : string) : M Json :=
  tryCatch
    (bind getValidAccessToken (fun accessToken =>
     bind (fetch (apiRequest endpoint accessToken)) (fun response =>
     if negb (ok response) then
       if (status response =? 401)%Z then
         tryCatch
           (bind refreshAccessToken (fun newToken =>
            bind (fetch (apiRequest endpoint newToken)) (fun retryResponse =>
            if negb (ok retryResponse) then
              raise (RetryError (status retryResponse))
            else readJson retryResponse)))
           (fun refreshError =>
              bind logout (fun _ => raise AuthenticationFailed))
       else raise (ApiError (status response) (errorText response))
     else readJson response)))
    (fun error => raise error).

End Client.

End Spotify.

(** ** Vocabulary of the client's properties *)

Module SpotifyVocabulary.

Import Spotify.

(** The three token entries of [localStorage]. *)
Definition tokenKeys : list string :=
  ["spotify_access_token"; "spotify_refresh_token"; "spotify_token_expires"].

(** A request that carries a bearer token. *)
Definition bearing (r : Request) : bool :=
  match authorization r with
  | Some _ => true
  | None => false
  end.

(** The requests of a list that carry a token, and those that do not. *)
Definition withToken (rs : list Request) : nat :=
  length (List.filter bearing rs).
Definition withoutToken (rs : list Request) : nat :=
  length (List.filter (fun r => negb (bearing r)) rs).

Section Footprint.

Context `{Runtime}.

(** From [st] to [st'] at most [api] requests with a token were sent, all
    of them to [endpoint], and at most [tok] without, all of them to the
    token endpoint. *)
Definition adds (endpoint : string) (api tok : nat) (st st' : St) : Prop :=
  exists new,
    sent st' = new ++ sent st /\
    (withToken new <= api)%nat /\ (withoutToken new <= tok)%nat /\
    Forall (fun r =>
              url r = if bearing r then SPOTIFY_API_BASE +:+ endpoint
                      else SPOTIFY_TOKEN_URL) new.

(** The body of the inner [try] of [spotifyApiCall]: refresh, then send
    the request once more. *)
Definition retryWithFreshToken (endpoint : string) : M Json :=
  bind refreshAccessToken (fun newToken =>
  bind (fetch (apiRequest endpoint newToken)) (fun retryResponse =>
  if negb (ok retryResponse) then raise (RetryError (status retryResponse))
  else readJson retryResponse)).

End Footprint.

End SpotifyVocabulary.

(** * The video search's last resort (src/utils/youtube.ts)

    A string is the list of its UTF-16 code units. *)

Module YouTube.

(** ToInt32: the value modulo 2^32, read as a signed 32-bit integer. *)
Definition toInt32 (z : Z) : Z :=
  let m := (z mod 2 ^ 32)%Z in
  if (m <? 2 ^ 31)%Z then m else (m - 2 ^ 32)%Z.

(** [a << n] *)
Definition shl (a n : Z) : Z := toInt32 (Z.shiftl (toInt32 a) n).

(** [a & b] *)
Definition and32 (a b : Z) : Z := Z.land (toInt32 a) (toInt32 b).

(** One round of the loop of [simpleHash]. *)
Definition hashStep (hash char : Z) : Z :=
  let hash := (shl hash 5 - hash + char)%Z in
  and32 hash hash.

Definition simpleHash (str : list Z) : Z :=
  Z.abs (fold_left hashStep str 0%Z).

Definition testVideoIds : list string :=
  [ "dQw4w9WgXcQ"; "kJQP7kiw5Fk"; "YQHsXMglC9A"; "hT_nvWreIhg";
    "fJ9rUzIMcZQ"; "JGwWNGJdvx8"; "RgKAFK5djSk"; "CevxZvSJLk8";
    "iLBBRuVDOo4"; "SlPhMPnQ58k" ].

(** The code unit of the space between artist and title. *)
Definition space : Z := 32.

(** [testVideoIds[index]]; [None] is [undefined]. *)
Definition searchViaAlternativeMethod (toLowerCase : list Z -> list Z)
    (artist title : list Z) : option string :=
  let searchString := toLowerCase (artist ++ space :: title) in
  let hash := simpleHash searchString in
  let index := Z.rem hash (Z.of_nat (length testVideoIds)) in
  if (index <? 0)%Z then None else testVideoIds !! Z.to_nat index.

(** The polynomial the hash computes: the code units as the digits of a
    numeral in base 31, first unit first. *)
Definition base31 (str : list Z) : Z :=
  fold_left (fun acc char => (31 * acc + char)%Z) str 0%Z.

End YouTube.

(** ** A runtime for the examples *)

Module SpotifyEx.

Import Spotify.

(** A JSON object with the properties the client reads. *)
Record Doc := {
  doc_access_token : option string;
  doc_refresh_token : option string;
  doc_expires_in : option Z;
  doc_error_message : option string;
}.

Definition digit (c : ascii) : option Z :=
  let n := (Z.of_N (N_of_ascii c) - 48)%Z in
  if (0 <=? n)%Z && (n <=? 9)%Z then Some n else None.

(** The leading decimal digits of a string; [None] when there are none. *)
Fixpoint digits (acc : option Z) (s : string) : option Z :=
  match s with
  | EmptyString => acc
  | String c rest =>
      match digit c with
      | Some d => digits (Some (10 * default 0%Z acc + d)%Z) rest
      | None => acc
      end
  end.

(** Unsigned decimal numerals as [parseInt] reads them, which is all the
    examples need. *)
Definition readInt (s : string) : option Z := digits None s.

#[global] Instance runtime : Runtime := {|
  clientId := "client";
  redirectUri := "http://localhost/callback";
  parseInt := readInt;
  numberToString := pretty;
  Json := Doc;
  access_token := doc_access_token;
  refresh_token := doc_refresh_token;
  expires_in := doc_expires_in;
  error_message := doc_error_message;
|}.

(** A client signed in at time 1000 with a token that expires at 5000. *)
Definition signedIn (net : list Exchange) : St :=
  {| localStorage :=
       {[ "spotify_access_token" := "tokenA";
          "spotify_refresh_token" := "refreshA";
          "spotify_token_expires" := "5000" ]};
     sessionStorage := ∅;
     now := 1000;
     network := net;
     sent := [] |}.

(** As [signedIn], with an expiry that is no numeral. *)
Definition noExpiry : St :=
  {| localStorage :=
       {[ "spotify_access_token" := "tokenA";
          "spotify_token_expires" := "NaN" ]};
     sessionStorage := ∅;
     now := 1000;
     network := [];
     sent := [] |}.

(** A client that is back from the authorization page. *)
Definition signingIn (net : list Exchange) : St :=
  {| localStorage := ∅;
     sessionStorage := {[ "spotify_code_verifier" := "verifierA" ]};
     now := 1000;
     network := net;
     sent := [] |}.

Definition response (code : Z) (document : option Doc) : Response :=
  {| status := code; json := document |}.

(** An exchange that takes 100 ms. *)
Definition answer (code : Z) (document : option Doc) : Exchange :=
  {| took := 100; reply := Some (response code document) |}.

Definition body : Doc :=
  {| doc_access_token := None; doc_refresh_token := None;
     doc_expires_in := None; doc_error_message := None |}.

(** The token endpoint's answer to a refresh. *)
Definition freshToken : Doc :=
  {| doc_access_token := Some "tokenB"; doc_refresh_token := None;
     doc_expires_in := Some 3600%Z; doc_error_message := None |}.

Definition notFound : Doc :=
  {| doc_access_token := None; doc_refresh_token := None;
     doc_expires_in := None; doc_error_message := Some "Not found" |}.

End SpotifyEx.

(** * Properties *)

(** ** Comparisons *)

Lemma ltb_lt x y : Num.ltb x y = true <-> (x < y)%Q.
Proof.
  unfold Num.ltb. rewrite negb_true_iff. split.
  - intros H. apply Qnot_le_lt. intros Hle.
    apply Qle_bool_iff in Hle. congruence.
  - intros H. destruct (Qle_bool y x) eqn:E; [|reflexivity].
    apply Qle_bool_iff in E. exfalso. revert E. apply Qlt_not_le, H.
Qed.

Lemma ltb_ge x y : Num.ltb x y = false <-> (y <= x)%Q.
Proof.
  unfold Num.ltb. rewrite negb_false_iff. apply Qle_bool_iff.
Qed.

Lemma leb_le x y : Num.leb x y = true <-> (x <= y)%Q.
Proof. apply Qle_bool_iff. Qed.

Lemma leb_gt x y : Num.leb x y = false <-> (y < x)%Q.
Proof.
  unfold Num.leb. split.
  - intros H. apply Qnot_le_lt. intros Hle.
    apply Qle_bool_iff in Hle. congruence.
  - intros H. destruct (Qle_bool x y) eqn:E; [|reflexivity].
    apply Qle_bool_iff in E. exfalso. revert E. apply Qlt_not_le, H.
Qed.


(** ** The beat snapper *)

Lemma snapLoop_running (t : Q) (bars : list Bar.t) (c : Q) :
  let r := snapLoop t bars c (Some (Qabs (c - t))) in
  (r = c \/ exists b, b ∈ bars /\ confident b /\ r = Bar.start b) /\
  (Qabs (r - t) <= Qabs (c - t))%Q /\
  (forall b, b ∈ bars -> confident b ->
     (Qabs (r - t) <= Qabs (Bar.start b - t))%Q).
Proof.
  revert c. induction bars as [|bar rest IH]; intros c; cbn [snapLoop belowMin].
  - repeat split.
    + now left.
    + apply Qle_refl.
    + intros b Hb. inversion Hb.
  - destruct (Num.ltb (Bar.confidence bar) 0.5) eqn:Hc.
    + destruct (IH c) as (Hr & Hle & Hmin). repeat split.
      * destruct Hr as [Hr | (b & Hb & Hcb & Hr)]; [now left|].
        right. exists b. split; [now apply list_elem_of_further|auto].
      * exact Hle.
      * intros b Hb Hcb. apply elem_of_cons in Hb as [-> | Hb].
        -- apply ltb_lt in Hc. unfold confident in Hcb.
           exfalso. revert Hcb. now apply Qlt_not_le.
        -- now apply Hmin.
    + apply ltb_ge in Hc.
      destruct (Num.ltb (Qabs (Bar.start bar - t)) (Qabs (c - t))) eqn:Hd.
      * apply ltb_lt in Hd.
        destruct (IH (Bar.start bar)) as (Hr & Hle & Hmin). repeat split.
        -- right. destruct Hr as [Hr | (b & Hb & Hcb & Hr)].
           ++ exists bar. split; [apply list_elem_of_here|]. split; [exact Hc|exact Hr].
           ++ exists b. split; [now apply list_elem_of_further|]. split; [exact Hcb|exact Hr].
        -- eapply Qle_trans; [exact Hle|]. now apply Qlt_le_weak.
        -- intros b Hb Hcb. apply elem_of_cons in Hb as [-> | Hb].
           ++ exact Hle.
           ++ now apply Hmin.
      * apply ltb_ge in Hd.
        destruct (IH c) as (Hr & Hle & Hmin). repeat split.
        -- destruct Hr as [Hr | (b & Hb & Hcb & Hr)]; [now left|].
           right. exists b. split; [now apply list_elem_of_further|auto].
        -- exact Hle.
        -- intros b Hb Hcb. apply elem_of_cons in Hb as [-> | Hb].
           ++ eapply Qle_trans; [exact Hle|exact Hd].
           ++ now apply Hmin.
Qed.

Lemma snapLoop_fresh (t : Q) (bars : list Bar.t) :
  let r := snapLoop t bars t None in
  ((forall b, b ∈ bars -> ~ confident b) /\ r = t) \/
  (exists b, b ∈ bars /\ confident b /\ r = Bar.start b /\
     forall b', b' ∈ bars -> confident b' ->
       (Qabs (Bar.start b - t) <= Qabs (Bar.start b' - t))%Q).
Proof.
  induction bars as [|bar rest IH]; cbn [snapLoop belowMin].
  - left. split; [|reflexivity]. intros b Hb. inversion Hb.
  - destruct (Num.ltb (Bar.confidence bar) 0.5) eqn:Hc.
    + apply ltb_lt in Hc.
      destruct IH as [(Hnone & Hr) | (b & Hb & Hcb & Hr & Hmin)].
      * left. split; [|exact Hr].
        intros b Hb. apply elem_of_cons in Hb as [-> | Hb]; [|now apply Hnone].
        unfold confident. now apply Qlt_not_le.
      * right. exists b. repeat split; auto.
        -- now apply list_elem_of_further.
        -- intros b' Hb' Hcb'. apply elem_of_cons in Hb' as [-> | Hb'].
           ++ exfalso. revert Hcb'. now apply Qlt_not_le.
           ++ now apply Hmin.
    + apply ltb_ge in Hc. right.
      destruct (snapLoop_running t rest (Bar.start bar)) as (Hr & Hle & Hmin).
      destruct Hr as [Hr | (b & Hb & Hcb & Hr)].
      * exists bar. split; [apply list_elem_of_here|].
        split; [exact Hc|]. split; [exact Hr|].
        intros b' Hb' Hcb'. apply elem_of_cons in Hb' as [-> | Hb'].
        -- apply Qle_refl.
        -- rewrite <- Hr. now apply Hmin.
      * exists b. repeat split; auto.
        -- now apply list_elem_of_further.
        -- intros b' Hb' Hcb'. rewrite <- Hr.
           apply elem_of_cons in Hb' as [-> | Hb'].
           ++ exact Hle.
           ++ now apply Hmin.
Qed.

(** C9.  For every raw timestamp and every list of bars, [snapToDownbeat]
    returns the raw timestamp unchanged when no bar has confidence at
    least 0.5, and otherwise returns the start of a bar with confidence at
    least 0.5 whose start is closest (in absolute difference) to the raw
    timestamp among all such bars.  In particular a raw timestamp of
    61.3 s with bars at 60.0 s (confidence 0.9) and 64.0 s (confidence
    0.4) snaps to 60.0 s. *)
Theorem snapToDownbeat_nearest_confident_bar :
  forall (targetSec : Q) (bars : list Bar.t),
    ((forall b, b ∈ bars -> (Bar.confidence b < 0.5)%Q) ->
       snapToDownbeat targetSec bars = targetSec) /\
    ((exists b, b ∈ bars /\ (0.5 <= Bar.confidence b)%Q) ->
       exists b, b ∈ bars /\ (0.5 <= Bar.confidence b)%Q /\
         snapToDownbeat targetSec bars = Bar.start b /\
         forall b', b' ∈ bars -> (0.5 <= Bar.confidence b')%Q ->
           (Qabs (Bar.start b - targetSec)
              <= Qabs (Bar.start b' - targetSec))%Q) /\
    snapToDownbeat 61.3 [Bar.mk 60.0 4.0 0.9; Bar.mk 64.0 4.0 0.4] = 60.0%Q.
Proof.
  intros t bars. split; [|split].
  - intros Hlow. unfold snapToDownbeat.
    destruct (snapLoop_fresh t bars) as [(_ & Hr) | (b & Hb & Hcb & _)].
    + exact Hr.
    + exfalso. revert Hcb. apply Qlt_not_le. now apply Hlow.
  - intros (b0 & Hb0 & Hc0). unfold snapToDownbeat.
    destruct (snapLoop_fresh t bars) as [(Hnone & _) | (b & Hb & Hcb & Hr & Hmin)].
    + exfalso. now apply (Hnone b0).
    + exists b. auto.
  - reflexivity.
Qed.


(** ** Scans over adjacent pairs *)

Lemma pick_cases (best : option Cand.t) (c : Cand.t) :
  (pick best c = Some c /\
     forall b, best = Some b -> (Cand.score b < Cand.score c)%Q) \/
  (exists b, best = Some b /\ pick best c = Some b /\
     (Cand.score c <= Cand.score b)%Q).
Proof.
  destruct best as [b|]; cbn [pick].
  - destruct (Num.ltb (Cand.score b) (Cand.score c)) eqn:E.
    + left. split; [reflexivity|]. intros b' [= <-]. now apply ltb_lt.
    + right. exists b. repeat split. now apply ltb_ge.
  - left. split; [reflexivity|]. intros b [=].
Qed.

Section AdjacentScanFacts.

Context {A : Type}.
Variable qualifies : A -> bool.
Variable candidate : A -> A -> Cand.t.

Let step (best : option Cand.t) (prev cur : A) : option Cand.t :=
  if qualifies cur then pick best (candidate prev cur) else best.

Lemma last_cons_default (a : A) (l : list A) (d d' : A) :
  List.last (a :: l) d = List.last (a :: l) d'.
Proof.
  revert a. induction l as [|b l IH]; intros a; [reflexivity|].
  change (List.last (b :: l) d = List.last (b :: l) d'). apply IH.
Qed.

Lemma last_cons_shift (a : A) (l : list A) (d : A) :
  List.last (a :: l) d = List.last l a.
Proof.
  destruct l as [|b l]; [reflexivity|].
  change (List.last (b :: l) d = List.last (b :: l) a).
  apply last_cons_default.
Qed.

Lemma scanLoop_snoc (prev : A) (rest : list A) (x : A)
    (best : option Cand.t) :
  scanLoop qualifies candidate prev (rest ++ [x]) best =
  step (scanLoop qualifies candidate prev rest best)
       (List.last rest prev) x.
Proof.
  revert prev best. induction rest as [|y rest IH]; intros prev best.
  - reflexivity.
  - cbn [app scanLoop]. rewrite IH. f_equal.
    symmetry. apply last_cons_shift.
Qed.

Lemma scan_snoc (first : A) (rest : list A) (x : A) :
  scan qualifies candidate ((first :: rest) ++ [x]) =
  step (scan qualifies candidate (first :: rest))
       (List.last rest first) x.
Proof. apply scanLoop_snoc. Qed.

Lemma lookup_last_cons (first : A) (rest : list A) :
  (first :: rest) !! length rest = Some (List.last rest first).
Proof.
  revert first. induction rest as [|y rest IH]; intros first.
  - reflexivity.
  - cbn [length]. rewrite lookup_cons. rewrite IH.
    f_equal. symmetry. apply last_cons_shift.
Qed.

Lemma hitAt_snoc (first : A) (rest : list A) (x : A) (j : nat)
    (c : Cand.t) :
  hitAt qualifies candidate ((first :: rest) ++ [x]) j c <->
  hitAt qualifies candidate (first :: rest) j c \/
  (j = length rest /\ qualifies x = true /\
   c = candidate (List.last rest first) x).
Proof.
  set (l := first :: rest).
  assert (Hlen : length l = S (length rest)) by reflexivity.
  split.
  - intros (p & cur & Hp & Hcur & Hq & ->).
    destruct (decide (S j < length l)%nat) as [Hlt|Hge].
    + left. exists p, cur.
      rewrite lookup_app_l in Hp by lia.
      rewrite lookup_app_l in Hcur by lia. auto.
    + right.
      assert (S j < length (l ++ [x]))%nat as Hb
        by (apply lookup_lt_is_Some; eauto).
      rewrite length_app in Hb. cbn [length] in Hb.
      assert (j = length rest) as -> by lia.
      rewrite lookup_app_l in Hp by lia.
      unfold l in Hp. rewrite lookup_last_cons in Hp.
      rewrite lookup_app_r in Hcur by lia.
      rewrite Hlen, Nat.sub_diag in Hcur. cbn in Hcur.
      injection Hp as <-. injection Hcur as <-. auto.
  - intros [(p & cur & Hp & Hcur & Hq & ->) | (-> & Hq & ->)].
    + exists p, cur. repeat split; auto.
      * apply lookup_app_l_Some, Hp.
      * apply lookup_app_l_Some, Hcur.
    + exists (List.last rest first), x. repeat split; auto.
      * apply lookup_app_l_Some. unfold l. apply lookup_last_cons.
      * rewrite lookup_app_r by (rewrite Hlen; lia).
        rewrite Hlen, Nat.sub_diag. reflexivity.
Qed.

Lemma hitAt_bound (items : list A) (i : nat) (c : Cand.t) :
  hitAt qualifies candidate items i c -> (S i < length items)%nat.
Proof.
  intros (p & cur & _ & Hcur & _). apply lookup_lt_is_Some. eauto.
Qed.

Lemma scan_firstBest (items : list A) :
  firstBest qualifies candidate items (scan qualifies candidate items).
Proof.
  induction items as [|x l IH] using rev_ind.
  - intros i c (p & cur & Hp & _). inversion Hp.
  - destruct l as [|first rest].
    + intros i c H. apply hitAt_bound in H. cbn in H. lia.
    + rewrite scan_snoc. unfold step.
      set (r := scan qualifies candidate (first :: rest)) in *.
      set (c0 := candidate (List.last rest first) x).
      destruct (qualifies x) eqn:Hq.
      * assert (Hnew : hitAt qualifies candidate
                         ((first :: rest) ++ [x]) (length rest) c0)
          by (apply hitAt_snoc; right; auto).
        destruct (pick_cases r c0) as [(-> & Hlt) | (b & Hr & -> & Hle)].
        -- exists (length rest). split; [exact Hnew|].
           intros j c Hj. apply hitAt_snoc in Hj as [Hj | (-> & _ & ->)].
           ++ destruct r as [b|]; [|now destruct (IH j c)].
              destruct IH as (i & _ & Hall).
              destruct (Hall j c Hj) as (Hle & _).
              specialize (Hlt b eq_refl).
              split; [|intros _]; qlra.
           ++ split; [apply Qle_refl|lia].
        -- rewrite Hr in IH. destruct IH as (i & Hi & Hall).
           exists i. split; [apply hitAt_snoc; now left|].
           intros j c Hj. apply hitAt_snoc in Hj as [Hj | (-> & _ & ->)].
           ++ now apply Hall.
           ++ split; [exact Hle|]. apply hitAt_bound in Hi.
              cbn [length] in Hi. lia.
      * destruct r as [b|].
        -- destruct IH as (i & Hi & Hall). exists i.
           split; [apply hitAt_snoc; now left|].
           intros j c Hj. apply hitAt_snoc in Hj as [Hj | (_ & E & _)].
           ++ now apply Hall.
           ++ congruence.
        -- intros j c Hj. apply hitAt_snoc in Hj as [Hj | (_ & E & _)].
           ++ now apply (IH j c).
           ++ congruence.
Qed.

End AdjacentScanFacts.

(** ** The section scanner *)

Lemma outsideWindow_false (s e x : Q) :
  outsideWindow s e x = false <-> (s <= x <= e)%Q.
Proof.
  unfold outsideWindow. rewrite orb_false_iff, !ltb_ge. tauto.
Qed.

Lemma sectionsLoop_scanLoop (s e thresh : Q) (prev : Sec.t)
    (rest : list Sec.t) (best : option Cand.t) :
  sectionsLoop s e thresh prev rest best =
  scanLoop (sectionQualifies s e thresh) (sectionCandidate s e) prev rest best.
Proof.
  revert prev best. induction rest as [|cur rest IH]; intros prev best.
  - reflexivity.
  - cbn [sectionsLoop scanLoop]. unfold sectionQualifies at 2.
    destruct (outsideWindow s e (Sec.start cur)); cbn [negb andb].
    + apply IH.
    + destruct (Num.ltb (Sec.loudness cur) thresh); cbn [negb]; apply IH.
Qed.

Lemma findDropInSections_scan (secs : list Sec.t) (startMs endMs thresh : Q) :
  findDropInSections secs startMs endMs thresh =
  scan (sectionQualifies (startMs / 1000) (endMs / 1000) thresh)
       (sectionCandidate (startMs / 1000) (endMs / 1000)) secs.
Proof.
  destruct secs as [|first rest]; [reflexivity|].
  apply sectionsLoop_scanLoop.
Qed.

Lemma sectionQualifies_true (s e thresh : Q) (cur : Sec.t) :
  sectionQualifies s e thresh cur = true <->
  (s <= Sec.start cur <= e)%Q /\ (thresh <= Sec.loudness cur)%Q.
Proof.
  unfold sectionQualifies.
  rewrite andb_true_iff, !negb_true_iff, outsideWindow_false, ltb_ge.
  tauto.
Qed.

Lemma sectionScore_closed (s span : Q) (prev cur : Sec.t) :
  (sectionScore s span prev cur ==
   (Sec.loudness cur + 60) / 10 + Sec.tempo_confidence cur * 4
   + Num.bonus (Num.ltb (Sec.loudness prev + 2) (Sec.loudness cur)) 4
   + Num.bonus (Num.ltb 0.2 ((Sec.start cur - s) / span)
                && Num.ltb ((Sec.start cur - s) / span) 0.8) 2)%Q.
Proof.
  unfold sectionScore, Num.bonus.
  destruct (Num.ltb (Sec.loudness prev + 2) (Sec.loudness cur));
    destruct (Num.ltb 0.2 ((Sec.start cur - s) / span)
              && Num.ltb ((Sec.start cur - s) / span) 0.8); ring.
Qed.

(** C7, as the code has it.  [findDropInSections] returns, among the
    sections after the first whose start lies in the search window and
    whose loudness is at least the threshold, the one of highest score,
    the earliest such section on equal scores, and nothing when there is
    no such section.  The score of a section is (loudness + 60) / 10, plus
    4 times its tempo confidence, plus 4 when its loudness exceeds that of
    the section just before it by more than 2 dB, plus 2 when its position
    ratio in the window is strictly between 0.2 and 0.8.  There is no
    further bonus for a tempo confidence above 0.7. *)
Theorem findDropInSections_first_best :
  forall (secs : list Sec.t) (startMs endMs thresh : Q),
    let s := (startMs / 1000)%Q in
    let e := (endMs / 1000)%Q in
    let qualifies (cur : Sec.t) :=
      (s <= Sec.start cur <= e)%Q /\ (thresh <= Sec.loudness cur)%Q in
    let score (prev cur : Sec.t) :=
      let posRatio := ((Sec.start cur - s) / (e - s))%Q in
      ((Sec.loudness cur + 60) / 10 + Sec.tempo_confidence cur * 4
       + Num.bonus (Num.ltb (Sec.loudness prev + 2) (Sec.loudness cur)) 4
       + Num.bonus (Num.ltb 0.2 posRatio && Num.ltb posRatio 0.8) 2)%Q in
    match findDropInSections secs startMs endMs thresh with
    | None =>
        forall i prev cur,
          secs !! i = Some prev -> secs !! S i = Some cur -> ~ qualifies cur
    | Some hit =>
        exists i prev cur,
          secs !! i = Some prev /\ secs !! S i = Some cur /\ qualifies cur /\
          Cand.start hit = Sec.start cur /\
          (Cand.score hit == score prev cur)%Q /\
          forall j prev' cur',
            secs !! j = Some prev' -> secs !! S j = Some cur' ->
            qualifies cur' ->
            (score prev' cur' <= Cand.score hit)%Q /\
            ((j < i)%nat -> (score prev' cur' < Cand.score hit)%Q)
    end.
Proof.
  intros secs startMs endMs thresh s e qualifies score.
  rewrite findDropInSections_scan. fold s e.
  pose proof (scan_firstBest (sectionQualifies s e thresh)
                (sectionCandidate s e) secs) as H.
  destruct (scan _ _ secs) as [hit|]; cbn [firstBest] in H.
  - destruct H as (i & (prev & cur & Hp & Hc & Hq & ->) & Hall).
    exists i, prev, cur. apply sectionQualifies_true in Hq.
    repeat split; try tauto.
    + apply sectionScore_closed.
    + destruct (Hall j (sectionCandidate s e prev' cur')) as (Hle & _).
      { exists prev', cur'. repeat split; auto.
        now apply sectionQualifies_true. }
      cbn [sectionCandidate Cand.score] in Hle |- *.
      unfold score. rewrite <- sectionScore_closed. exact Hle.
    + intros Hji.
      destruct (Hall j (sectionCandidate s e prev' cur')) as (_ & Hlt).
      { exists prev', cur'. repeat split; auto.
        now apply sectionQualifies_true. }
      cbn [sectionCandidate Cand.score] in Hlt |- *.
      unfold score. rewrite <- sectionScore_closed. now apply Hlt.
  - intros i prev cur Hp Hc Hq.
    apply (H i (sectionCandidate s e prev cur)).
    exists prev, cur. repeat split; auto. now apply sectionQualifies_true.
Qed.

(** C7: the claim fails.  On [Ex.tiedSections] (window 30 s to 140 s,
    threshold -16 dB) the source scores the sections at 35 s and at 40 s
    alike and returns the earlier one; with any positive bonus for a tempo
    confidence above 0.7 the section at 40 s would score higher and be
    returned. *)
Lemma findDropInSections_no_tempo_bonus :
  ~ exists tempoBonus : Q,
      (0 < tempoBonus)%Q /\
      Cand.start <$> findDropInSections Ex.tiedSections 30000 140000 (-16) =
      Cand.start <$>
        claimedFindDropInSections tempoBonus Ex.tiedSections 30000 140000 (-16).
Proof.
  intros (b & Hb & H).
  assert (Hcode : Cand.start <$>
            findDropInSections Ex.tiedSections 30000 140000 (-16)
          = Some 35%Q) by reflexivity.
  assert (Hclaimed : Cand.start <$>
            claimedFindDropInSections b Ex.tiedSections 30000 140000 (-16)
          = Some 40%Q).
  { unfold claimedFindDropInSections, Ex.tiedSections.
    cbn [scan scanLoop].
    set (s := (30000 / 1000)%Q). set (e := (140000 / 1000)%Q).
    set (first := Sec.mk 0 35 (-5) 120 0.5).
    set (early := Sec.mk 35 5 (-5) 120 0.5).
    set (late := Sec.mk 40 100 (-15) 120 0.75).
    change (sectionQualifies s e (-16) early) with true.
    change (sectionQualifies s e (-16) late) with true.
    cbn [pick].
    assert (Hlt : (Cand.score (claimedSectionCandidate b s e first early)
                   < Cand.score (claimedSectionCandidate b s e early late))%Q).
    { cbn [claimedSectionCandidate Cand.score].
      assert (He : (sectionScore s (e - s) first early == 7.5)%Q)
        by reflexivity.
      assert (Hl : (sectionScore s (e - s) early late == 7.5)%Q)
        by reflexivity.
      rewrite He, Hl.
      change (Num.ltb 0.7 (Sec.tempo_confidence early)) with false.
      change (Num.ltb 0.7 (Sec.tempo_confidence late)) with true.
      cbn [Num.bonus]. Lqa.lra. }
    apply ltb_lt in Hlt. rewrite Hlt. reflexivity. }
  rewrite Hcode, Hclaimed in H. discriminate H.
Qed.

(** ** The segment scanner *)

Lemma segmentsLoop_scanLoop (s e thresh : Q) (prev : Seg.t)
    (rest : list Seg.t) (best : option Cand.t) :
  segmentsLoop s e thresh prev rest best =
  scanLoop (segmentQualifies s e thresh) segmentCandidate prev rest best.
Proof.
  revert prev best. induction rest as [|cur rest IH]; intros prev best.
  - reflexivity.
  - cbn [segmentsLoop scanLoop]. unfold segmentQualifies at 2.
    destruct (outsideWindow s e (Seg.start cur)); cbn [negb andb].
    + apply IH.
    + destruct (Num.ltb (Seg.loudness_max cur) thresh); cbn [negb]; apply IH.
Qed.

Lemma findDropInSegments_scan (segs : list Seg.t) (startMs endMs thresh : Q) :
  findDropInSegments segs startMs endMs thresh =
  scan (segmentQualifies (startMs / 1000) (endMs / 1000) thresh)
       segmentCandidate segs.
Proof.
  destruct segs as [|first rest]; [reflexivity|].
  apply segmentsLoop_scanLoop.
Qed.

Lemma segmentQualifies_true (s e thresh : Q) (cur : Seg.t) :
  segmentQualifies s e thresh cur = true <->
  (s <= Seg.start cur <= e)%Q /\ (thresh <= Seg.loudness_max cur)%Q.
Proof.
  unfold segmentQualifies.
  rewrite andb_true_iff, !negb_true_iff, outsideWindow_false, ltb_ge.
  tauto.
Qed.

(** C8, as the code has it.  [findDropInSegments] returns, among the
    segments after the first whose start lies in the search window and
    whose loudness-max is at least the threshold, the one of highest
    score, the earliest such segment on equal scores, and nothing when
    there is no such segment.  The score of a segment is 3 times its
    positive loudness-max jump over the segment just before it in the
    input (qualifying or not), plus (loudness-max + 60) / 15.  Timbre
    coefficients do not contribute, and there is no flat bonus for a jump
    above 3 dB. *)
Theorem findDropInSegments_first_best :
  forall (segs : list Seg.t) (startMs endMs thresh : Q),
    let s := (startMs / 1000)%Q in
    let e := (endMs / 1000)%Q in
    let qualifies (cur : Seg.t) :=
      (s <= Seg.start cur <= e)%Q /\ (thresh <= Seg.loudness_max cur)%Q in
    let score (prev cur : Seg.t) :=
      (Qmax 0 (Seg.loudness_max cur - Seg.loudness_max prev) * 3
       + (Seg.loudness_max cur + 60) / 15)%Q in
    match findDropInSegments segs startMs endMs thresh with
    | None =>
        forall i prev cur,
          segs !! i = Some prev -> segs !! S i = Some cur -> ~ qualifies cur
    | Some hit =>
        exists i prev cur,
          segs !! i = Some prev /\ segs !! S i = Some cur /\ qualifies cur /\
          Cand.start hit = Seg.start cur /\
          Cand.score hit = score prev cur /\
          forall j prev' cur',
            segs !! j = Some prev' -> segs !! S j = Some cur' ->
            qualifies cur' ->
            (score prev' cur' <= Cand.score hit)%Q /\
            ((j < i)%nat -> (score prev' cur' < Cand.score hit)%Q)
    end.
Proof.
  intros segs startMs endMs thresh s e qualifies score.
  rewrite findDropInSegments_scan. fold s e.
  pose proof (scan_firstBest (segmentQualifies s e thresh)
                segmentCandidate segs) as H.
  destruct (scan _ _ segs) as [hit|]; cbn [firstBest] in H.
  - destruct H as (i & (prev & cur & Hp & Hc & Hq & ->) & Hall).
    exists i, prev, cur. apply segmentQualifies_true in Hq.
    repeat split; try tauto.
    + destruct (Hall j (segmentCandidate prev' cur')) as (Hle & _);
        [|exact Hle].
      exists prev', cur'. repeat split; auto.
      now apply segmentQualifies_true.
    + intros Hji.
      destruct (Hall j (segmentCandidate prev' cur')) as (_ & Hlt);
        [|now apply Hlt].
      exists prev', cur'. repeat split; auto.
      now apply segmentQualifies_true.
  - intros i prev cur Hp Hc Hq.
    apply (H i (segmentCandidate prev cur)).
    exists prev, cur. repeat split; auto. now apply segmentQualifies_true.
Qed.

(** C8: the claim fails.  On [Ex.risingSegments] (window 30 s to 140 s,
    threshold -10 dB) the source scores the segment at 35 s against the
    quiet segment before it, which does not qualify, and returns it; scored
    against the qualifying segment just before it, whatever the timbre
    multiplier and the flat bonus, the segment at 40 s would be returned. *)
Lemma findDropInSegments_jump_over_any_predecessor :
  ~ exists (multiplier flat : Q) (scoreFirst : bool),
      (0 < multiplier)%Q /\ (0 < flat)%Q /\
      Cand.start <$> findDropInSegments Ex.risingSegments 30000 140000 (-10) =
      Cand.start <$>
        claimedFindDropInSegments multiplier flat scoreFirst
          Ex.risingSegments 30000 140000 (-10).
Proof.
  intros (k & f & scoreFirst & _ & _ & H).
  assert (Hcode : Cand.start <$>
            findDropInSegments Ex.risingSegments 30000 140000 (-10)
          = Some 35%Q) by reflexivity.
  rewrite Hcode in H. clear Hcode.
  assert (Hclaimed : Cand.start <$>
            claimedFindDropInSegments k f scoreFirst
              Ex.risingSegments 30000 140000 (-10)
          = Some 40%Q) by (destruct scoreFirst; reflexivity).
  rewrite Hclaimed in H. discriminate H.
Qed.

(** ** Bounds *)

Lemma squash_bounds (x : Q) : (0 <= squash x <= 1)%R.
Proof.
  unfold squash.
  pose proof (exp_pos (- 0.6 * (Q2R x - 5))) as Hexp.
  set (t := exp (- 0.6 * (Q2R x - 5))) in *.
  assert (Hpos : (0 < 1 + t)%R) by rlra.
  split.
  - apply Rlt_le. apply Rdiv_lt_0_compat; rlra.
  - apply (Rmult_le_reg_r (1 + t)); [exact Hpos|].
    unfold Rdiv. rewrite Rmult_assoc, Rinv_l by rlra. rlra.
Qed.

Lemma literal_confidence_bounds :
  (0 <= 0.6 <= 1)%R /\ (0 <= 0.2 <= 1)%R /\ (0 <= 0.3 <= 1)%R.
Proof. cbv [Q2R]. cbn. repeat split; rlra. Qed.

Lemma floor_within (x d : Q) :
  (0 <= x <= d)%Q -> (0 <= Qfloor x)%Z /\ (inject_Z (Qfloor x) <= d)%Q.
Proof.
  intros [H0 Hd]. split.
  - change 0%Z with (Qfloor 0). now apply Qfloor_resp_le.
  - eapply Qle_trans; [apply Qfloor_le|exact Hd].
Qed.

Lemma search_window_within (durMs : Q) :
  (0 <= durMs)%Q ->
  (0 <= searchStartMs durMs / 1000)%Q /\
  (searchEndMs durMs / 1000 * 1000 <= durMs)%Q.
Proof.
  intros H. unfold searchStartMs, searchEndMs. split.
  - qlra.
  - destruct (Num.ltb durMs 240000); qlra.
Qed.

Lemma findDropInSections_in_window (secs : list Sec.t)
    (startMs endMs thresh : Q) (c : Cand.t) :
  findDropInSections secs startMs endMs thresh = Some c ->
  (startMs / 1000 <= Cand.start c <= endMs / 1000)%Q.
Proof.
  rewrite findDropInSections_scan. intros H.
  pose proof (scan_firstBest
                (sectionQualifies (startMs / 1000) (endMs / 1000) thresh)
                (sectionCandidate (startMs / 1000) (endMs / 1000)) secs) as Hb.
  rewrite H in Hb. destruct Hb as (i & (prev & cur & _ & _ & Hq & ->) & _).
  apply sectionQualifies_true in Hq. apply Hq.
Qed.

Lemma findDropInSegments_in_window (segs : list Seg.t)
    (startMs endMs thresh : Q) (c : Cand.t) :
  findDropInSegments segs startMs endMs thresh = Some c ->
  (startMs / 1000 <= Cand.start c <= endMs / 1000)%Q.
Proof.
  rewrite findDropInSegments_scan. intros H.
  pose proof (scan_firstBest
                (segmentQualifies (startMs / 1000) (endMs / 1000) thresh)
                segmentCandidate segs) as Hb.
  rewrite H in Hb. destruct Hb as (i & (prev & cur & _ & _ & Hq & ->) & _).
  apply segmentQualifies_true in Hq. apply Hq.
Qed.

Lemma inRangeb_true (s e : Q) (seg : Seg.t) :
  inRangeb s e seg = true <-> (s <= Seg.start seg <= e)%Q.
Proof.
  unfold inRangeb. rewrite andb_true_iff, !leb_le. tauto.
Qed.

Lemma foldl_louder_elem (first : Seg.t) (rest : list Seg.t) :
  foldl louder first rest ∈ first :: rest.
Proof.
  revert first. induction rest as [|x rest IH]; intros first; cbn [foldl].
  - apply list_elem_of_here.
  - specialize (IH (louder first x)).
    apply elem_of_cons in IH as [-> | IH].
    + unfold louder. destruct (Num.ltb _ _).
      * apply list_elem_of_further, list_elem_of_here.
      * apply list_elem_of_here.
    + now do 2 apply list_elem_of_further.
Qed.

Lemma louder_ge (a b : Seg.t) :
  (Seg.loudness_max a <= Seg.loudness_max (louder a b))%Q /\
  (Seg.loudness_max b <= Seg.loudness_max (louder a b))%Q.
Proof.
  unfold louder.
  destruct (Num.ltb (Seg.loudness_max a) (Seg.loudness_max b)) eqn:E.
  - apply ltb_lt in E. split; [now apply Qlt_le_weak|apply Qle_refl].
  - apply ltb_ge in E. split; [apply Qle_refl|exact E].
Qed.

Lemma foldl_louder_ge_init (first : Seg.t) (rest : list Seg.t) :
  (Seg.loudness_max first <= Seg.loudness_max (foldl louder first rest))%Q.
Proof.
  revert first. induction rest as [|y rest IH]; intros first; cbn [foldl].
  - apply Qle_refl.
  - eapply Qle_trans; [apply (louder_ge first y)|apply IH].
Qed.

Lemma foldl_louder_max (first : Seg.t) (rest : list Seg.t) (x : Seg.t) :
  x ∈ first :: rest ->
  (Seg.loudness_max x <= Seg.loudness_max (foldl louder first rest))%Q.
Proof.
  revert first. induction rest as [|y rest IH]; intros first Hx; cbn [foldl].
  - apply list_elem_of_singleton in Hx as ->. apply Qle_refl.
  - destruct (louder_ge first y) as [Hf Hy].
    pose proof (foldl_louder_ge_init (louder first y) rest) as Hacc.
    apply elem_of_cons in Hx as [-> | Hx].
    + eapply Qle_trans; [exact Hf|exact Hacc].
    + apply elem_of_cons in Hx as [-> | Hx].
      * eapply Qle_trans; [exact Hy|exact Hacc].
      * apply IH. now apply list_elem_of_further.
Qed.

(** The loudest-segment fallback yields nothing exactly when no segment
    starts in the window, and otherwise the start of a segment in the
    window that no other segment in the window exceeds in loudness-max. *)
Lemma loudestSegmentInRange_cases (segs : list Seg.t) (startMs endMs : Q) :
  let inWindow (seg : Seg.t) :=
    (startMs / 1000 <= Seg.start seg <= endMs / 1000)%Q in
  match loudestSegmentInRange segs startMs endMs with
  | None => forall seg, seg ∈ segs -> ~ inWindow seg
  | Some c =>
      exists seg, seg ∈ segs /\ inWindow seg /\ Cand.start c = Seg.start seg /\
        forall seg', seg' ∈ segs -> inWindow seg' ->
          (Seg.loudness_max seg' <= Seg.loudness_max seg)%Q
  end.
Proof.
  intros inWindow. unfold loudestSegmentInRange.
  assert (Hfilter : forall seg,
            In seg (List.filter
                      (inRangeb (startMs / 1000) (endMs / 1000)) segs)
            <-> seg ∈ segs /\ inWindow seg).
  { intros seg. unfold inWindow.
    rewrite filter_In, inRangeb_true, list_elem_of_In. tauto. }
  destruct (List.filter _ segs) as [|first rest] eqn:E.
  - intros seg Hseg Hin. apply (Hfilter seg). auto.
  - exists (foldl louder first rest). cbn [Cand.start].
    pose proof (foldl_louder_elem first rest) as Hel.
    apply list_elem_of_In, Hfilter in Hel. destruct Hel as [Hin Hr].
    split; [exact Hin|]. split; [exact Hr|]. split; [reflexivity|].
    intros seg' Hseg' Hin'. apply foldl_louder_max.
    apply list_elem_of_In, Hfilter. auto.
Qed.

Lemma snapToDownbeat_cases (t : Q) (bars : list Bar.t) :
  snapToDownbeat t bars = t \/
  exists b, b ∈ bars /\ (0.5 <= Bar.confidence b)%Q /\
    snapToDownbeat t bars = Bar.start b.
Proof.
  unfold snapToDownbeat.
  destruct (snapLoop_fresh t bars) as [(_ & Hr) | (b & Hb & Hcb & Hr & _)].
  - now left.
  - right. exists b. auto.
Qed.

(** ** Running the detector *)

Lemma fallbackDrop_run (track : SpotifyTrack) (previewLength : Q)
    (confidence : R) (method : string) (w : World) :
  fallbackDrop track previewLength confidence method w =
  (Ok {| trackId := id track;
         dropStart := Qfloor (duration_ms track * 0.3);
         confidence := confidence;
         method := method;
         previewLength := previewLength;
         analysisTimestamp := clock w |}, w).
Proof. reflexivity. Qed.

Lemma buildResult_run (track : SpotifyTrack) (analysis : AudioAnalysis)
    (c : Cand.t) (method : string) (previewLength : Q)
    (confidenceOverride : option R) (w : World) :
  buildResult track analysis c method previewLength confidenceOverride w =
  match bars analysis with
  | Some bs =>
      (Ok {| trackId := id track;
             dropStart := Qfloor (snapToDownbeat (Cand.start c) bs * 1000);
             confidence := default (squash (Cand.score c)) confidenceOverride;
             method := method;
             previewLength := previewLength;
             analysisTimestamp := clock w |}, w)
  | None => (Throw TypeError, w)
  end.
Proof.
  unfold buildResult, bind, property.
  destruct (bars analysis), confidenceOverride; reflexivity.
Qed.

Lemma analyzeForDrop_run (track : SpotifyTrack) (analysis : AudioAnalysis)
    (loudnessOffset previewLength : Q) (w : World)
    (secs : list Sec.t) (segs : list Seg.t) :
  sections analysis = Some secs -> segments analysis = Some segs ->
  let startMs := searchStartMs (duration_ms track) in
  let endMs := searchEndMs (duration_ms track) in
  let thresh := (median (map Seg.loudness_max segs) + loudnessOffset)%Q in
  analyzeForDrop track analysis loudnessOffset previewLength w =
  match findDropInSections secs startMs endMs thresh with
  | Some c => buildResult track analysis c "sections" previewLength None w
  | None =>
  match findDropInSegments segs startMs endMs thresh with
  | Some c => buildResult track analysis c "segments" previewLength None w
  | None =>
  match loudestSegmentInRange segs startMs endMs with
  | Some c =>
      buildResult track analysis c "loudest‑segment" previewLength
        (Some 0.6%R) w
  | None => fallbackDrop track previewLength 0.2%R "30‑percent" w
  end end end.
Proof.
  intros Hsecs Hsegs startMs endMs thresh.
  unfold analyzeForDrop, bind, property.
  rewrite Hsecs, Hsegs. cbn [ret]. fold startMs endMs thresh.
  destruct (findDropInSections secs startMs endMs thresh); [reflexivity|].
  destruct (findDropInSegments segs startMs endMs thresh); [reflexivity|].
  destruct (loudestSegmentInRange segs startMs endMs); reflexivity.
Qed.

(** The analysis reads the clock and nothing else of the world. *)
Lemma analyzeForDrop_world (track : SpotifyTrack) (analysis : AudioAnalysis)
    (loudnessOffset previewLength : Q) (w : World) :
  snd (analyzeForDrop track analysis loudnessOffset previewLength w) = w.
Proof.
  destruct (segments analysis) as [segs|] eqn:Hsegs.
  - destruct (sections analysis) as [secs|] eqn:Hsecs.
    + rewrite (analyzeForDrop_run _ _ _ _ _ _ _ Hsecs Hsegs).
      repeat match goal with
      | |- context [match ?x with Some _ => _ | None => _ end] =>
          destruct x
      end;
      rewrite ?buildResult_run, ?fallbackDrop_run;
      try destruct (bars analysis); reflexivity.
    + unfold analyzeForDrop, bind, property. rewrite Hsegs, Hsecs. reflexivity.
  - unfold analyzeForDrop, bind, property. rewrite Hsegs. reflexivity.
Qed.

(** What the analysis can return: one of its four methods, never "error". *)
Lemma analyzeForDrop_method (track : SpotifyTrack) (analysis : AudioAnalysis)
    (loudnessOffset previewLength : Q) (w w' : World) (r : DropAnalysis) :
  analyzeForDrop track analysis loudnessOffset previewLength w = (Ok r, w') ->
  method r <> "error".
Proof.
  destruct (segments analysis) as [segs|] eqn:Hsegs.
  - destruct (sections analysis) as [secs|] eqn:Hsecs.
    + rewrite (analyzeForDrop_run _ _ _ _ _ _ _ Hsecs Hsegs).
      repeat match goal with
      | |- context [match ?x with Some _ => _ | None => _ end] =>
          destruct x
      end;
      rewrite ?buildResult_run, ?fallbackDrop_run;
      try destruct (bars analysis); intros [= <- _]; discriminate.
    + unfold analyzeForDrop, bind, property. rewrite Hsegs, Hsecs.
      discriminate.
  - unfold analyzeForDrop, bind, property. rewrite Hsegs. discriminate.
Qed.

Section OrchestratorFacts.

Variable numberToString : Q -> string.

(** The lookup never changes the world, and never throws. *)
Lemma getCachedAnalysis_run (trackId : string) (off len : Q) (w : World) :
  getCachedAnalysis numberToString trackId off len w =
  (Ok (if idbOpens w
       then storeGet (getCacheKey numberToString trackId off len) w
       else None), w).
Proof. unfold getCachedAnalysis. destruct (idbOpens w); reflexivity. Qed.

Lemma detectDrop_hit (track : SpotifyTrack) (off len : Q) (w : World)
    (cached : option DropAnalysis) (hit : DropAnalysis) :
  getCachedAnalysis numberToString (id track) off len w = (Ok cached, w) ->
  usable cached (clock w) = Some hit ->
  detectDrop numberToString track off len w = (Ok hit, w).
Proof.
  intros Hget Huse. unfold detectDrop, tryCatch, bind.
  rewrite Hget. cbn [dateNow]. rewrite Huse. reflexivity.
Qed.

Lemma detectDrop_miss (track : SpotifyTrack) (off len : Q) (w : World)
    (cached : option DropAnalysis) :
  getCachedAnalysis numberToString (id track) off len w = (Ok cached, w) ->
  usable cached (clock w) = None ->
  let w1 := afterRequest (endpointOf track) w in
  detectDrop numberToString track off len w =
  match spotify w (endpointOf track) with
  | Ok analysis =>
      match analyzeForDrop track analysis off len w1 with
      | (Ok r, _) =>
          (Ok r,
           if idbOpens w
           then storePut
                  {| value := r;
                     cacheKey :=
                       getCacheKey numberToString (id track) off len |} w1
           else w1)
      | (Throw _, _) => fallbackDrop track len 0.3%R "error" w1
      end
  | Throw _ => fallbackDrop track len 0.3%R "error" w1
  end.
Proof.
  intros Hget Huse w1. unfold detectDrop, tryCatch, bind.
  rewrite Hget. cbn [dateNow]. rewrite Huse.
  unfold spotifyApiCall, endpointOf.
  destruct (spotify w _) as [analysis|e]; [|reflexivity].
  fold (endpointOf track). fold w1.
  pose proof (analyzeForDrop_world track analysis off len w1) as Hw.
  destruct (analyzeForDrop track analysis off len w1) as [[r|e] w2].
  - cbn [snd] in Hw. subst w2. unfold cacheAnalysis, ret.
    change (idbOpens w1) with (idbOpens w).
    destruct (idbOpens w); reflexivity.
  - cbn [snd] in Hw. subst w2. reflexivity.
Qed.

(** C2.  [detectDrop] never throws: in every world, whatever the cache
    holds and whether the provider rejects, resolves with a response
    that lacks fields, or resolves with a full response, the call
    returns a [DropAnalysis]. *)
Theorem detectDrop_always_returns :
  forall (track : SpotifyTrack) (off len : Q) (w : World),
    exists (r : DropAnalysis) (w' : World),
      detectDrop numberToString track off len w = (Ok r, w').
Proof.
  intros track off len w. unfold detectDrop, tryCatch.
  match goal with
  | |- context [match ?body with (_, _) => _ end] =>
      destruct body as [[r|e] w']
  end.
  - exists r, w'. reflexivity.
  - rewrite fallbackDrop_run. eexists _, _. reflexivity.
Qed.

(** C3, as the code has it.  When no usable entry is cached and the
    provider call fails, [detectDrop] returns, for every track, the
    result whose [dropStart] is floor(duration_ms * 0.3), whose
    confidence is 0.3 and whose method is "error", stamped with the time
    at which the call failed; the store is left as it was. *)
Theorem detectDrop_provider_failure :
  forall (track : SpotifyTrack) (off len : Q) (w : World)
         (cached : option DropAnalysis) (e : exn),
    getCachedAnalysis numberToString (id track) off len w = (Ok cached, w) ->
    usable cached (clock w) = None ->
    spotify w (endpointOf track) = Throw e ->
    detectDrop numberToString track off len w =
    (Ok {| trackId := id track;
           dropStart := Qfloor (duration_ms track * 0.3);
           confidence := 0.3%R;
           method := "error";
           previewLength := len;
           analysisTimestamp := (clock w + latency w)%Z |},
     afterRequest (endpointOf track) w).
Proof.
  intros track off len w cached e Hget Huse Hfail.
  rewrite (detectDrop_miss track off len w cached Hget Huse).
  rewrite Hfail. apply fallbackDrop_run.
Qed.

(** C4, as the code has it.  A run that is not served from the cache
    returns the result of the analysis whenever the analysis yields one,
    whether or not the store can be opened.  If its result is not the
    error fallback and the store can be opened, the run ends with the
    store holding the returned result under the derived key; this includes
    the hard 30 % fallback.  The error fallback is returned without being
    written, and a store that cannot be opened is passed over in silence:
    in both cases the store is left as it was. *)
Theorem detectDrop_caches_analysis_results :
  forall (track : SpotifyTrack) (off len : Q) (w : World)
         (cached : option DropAnalysis),
    getCachedAnalysis numberToString (id track) off len w = (Ok cached, w) ->
    usable cached (clock w) = None ->
    let key := getCacheKey numberToString (id track) off len in
    exists (r : DropAnalysis) (w' : World),
      detectDrop numberToString track off len w = (Ok r, w') /\
      (forall analysis r0 w0,
         spotify w (endpointOf track) = Ok analysis ->
         analyzeForDrop track analysis off len
           (afterRequest (endpointOf track) w) = (Ok r0, w0) ->
         r = r0) /\
      (method r <> "error" -> idbOpens w = true ->
         store w' !! key = Some {| value := r; cacheKey := key |}) /\
      (method r = "error" -> store w' = store w) /\
      (idbOpens w = false -> store w' = store w).
Proof.
  intros track off len w cached Hget Huse key.
  rewrite (detectDrop_miss track off len w cached Hget Huse).
  assert (Herr : forall w1 : World, store w1 = store w ->
            (forall analysis r0 w0,
               spotify w (endpointOf track) = Ok analysis ->
               analyzeForDrop track analysis off len
                 (afterRequest (endpointOf track) w) = (Ok r0, w0) ->
               False) ->
            exists r w',
              fallbackDrop track len 0.3%R "error" w1 = (Ok r, w') /\
              (forall analysis r0 w0,
                 spotify w (endpointOf track) = Ok analysis ->
                 analyzeForDrop track analysis off len
                   (afterRequest (endpointOf track) w) = (Ok r0, w0) ->
                 r = r0) /\
              (method r <> "error" -> idbOpens w = true ->
                 store w' !! key = Some {| value := r; cacheKey := key |}) /\
              (method r = "error" -> store w' = store w) /\
              (idbOpens w = false -> store w' = store w)).
  { intros w1 Hstore Hnone. rewrite fallbackDrop_run.
    eexists _, _. split; [reflexivity|]. split.
    - intros analysis r0 w0 Hreply Ha.
      destruct (Hnone analysis r0 w0 Hreply Ha).
    - split; [intros Hm; now contradiction Hm|]. split; auto. }
  destruct (spotify w (endpointOf track)) as [analysis|e] eqn:Hreply.
  - destruct (analyzeForDrop track analysis off len _) as [[r|e] w2] eqn:Ha.
    + eexists _, _. split; [reflexivity|]. split.
      * intros analysis' r0 w0 [= <-] Ha'. rewrite Ha in Ha'.
        now injection Ha' as ->.
      * split; [|split].
        -- intros _ Hopen. rewrite Hopen. cbn [storePut store cacheKey].
           apply lookup_insert_eq.
        -- intros Hm. now apply analyzeForDrop_method in Ha.
        -- intros Hopen. rewrite Hopen. reflexivity.
    + apply Herr; [reflexivity|].
      intros analysis' r0 w0 [= <-] Ha'. rewrite Ha in Ha'. discriminate.
  - apply Herr; [reflexivity|]. intros analysis r0 w0 Hreply'. discriminate.
Qed.

(** C6, as the code has it.  When the store can be opened and holds,
    under the key of (track id, loudness offset, preview length), an entry
    whose age, now - analysisTimestamp, is strictly less than 7 days,
    [detectDrop] returns exactly the cached result and leaves the world as
    it was, so the provider is not invoked.  When the store cannot be
    opened, or holds no entry under the key, or holds one whose age is 7
    days or more, the entry counts as absent: the provider is invoked
    once, and the result is the one of the analysis, or the error fallback
    when the provider or the analysis fails, and never the entry of the
    store. *)
Theorem detectDrop_cache_hit_within_retention :
  forall (track : SpotifyTrack) (off len : Q) (w : World),
    let key := getCacheKey numberToString (id track) off len in
    let age (entry : CacheEntry) :=
      (clock w - analysisTimestamp (value entry))%Z in
    let w1 := afterRequest (endpointOf track) w in
    (forall entry,
       idbOpens w = true -> store w !! key = Some entry ->
       (age entry < 7 * 24 * 60 * 60 * 1000)%Z ->
       detectDrop numberToString track off len w = (Ok (value entry), w)) /\
    (idbOpens w = false \/ store w !! key = None \/
     (exists entry, store w !! key = Some entry /\
        (7 * 24 * 60 * 60 * 1000 <= age entry)%Z) ->
     requests (snd (detectDrop numberToString track off len w))
       = endpointOf track :: requests w /\
     detectDrop numberToString track off len w =
     match spotify w (endpointOf track) with
     | Ok analysis =>
         match analyzeForDrop track analysis off len w1 with
         | (Ok r, _) =>
             (Ok r,
              if idbOpens w
              then storePut {| value := r; cacheKey := key |} w1
              else w1)
         | (Throw _, _) =>
             (Ok {| trackId := id track;
                    dropStart := Qfloor (duration_ms track * 0.3);
                    confidence := 0.3%R;
                    method := "error";
                    previewLength := len;
                    analysisTimestamp := clock w1 |}, w1)
         end
     | Throw _ =>
         (Ok {| trackId := id track;
                dropStart := Qfloor (duration_ms track * 0.3);
                confidence := 0.3%R;
                method := "error";
                previewLength := len;
                analysisTimestamp := clock w1 |}, w1)
     end).
Proof.
  intros track off len w key age w1.
  pose proof (getCachedAnalysis_run (id track) off len w) as Hget.
  fold key in Hget. split.
  - intros entry Hopen Hentry Hage.
    rewrite Hopen in Hget. unfold storeGet in Hget. rewrite Hentry in Hget.
    cbn [fmap option_fmap option_map] in Hget.
    apply (detectDrop_hit track off len w _ _ Hget).
    cbn [usable]. fold (age entry).
    destruct (Z.ltb_spec (age entry) retentionMs) as [_|Hge]; [reflexivity|].
    unfold retentionMs in Hge. lia.
  - intros Hmiss.
    assert (Huse : usable (if idbOpens w then storeGet key w else None)
                     (clock w) = None).
    { destruct Hmiss as [Hclosed | [Habsent | (entry & Hentry & Hage)]].
      - rewrite Hclosed. reflexivity.
      - unfold storeGet. rewrite Habsent. now destruct (idbOpens w).
      - unfold storeGet. rewrite Hentry.
        destruct (idbOpens w); [|reflexivity].
        cbn [fmap option_fmap option_map usable]. fold (age entry).
        destruct (Z.ltb_spec (age entry) retentionMs) as [Hlt|_];
          [|reflexivity].
        unfold retentionMs in Hlt. lia. }
    rewrite (detectDrop_miss track off len w _ Hget Huse).
    fold key w1.
    destruct (spotify w (endpointOf track)) as [analysis|e];
      [|split; reflexivity].
    destruct (analyzeForDrop track analysis off len w1) as [[r0|e] w2];
      [|split; reflexivity].
    split; [|reflexivity]. cbn [snd]. now destruct (idbOpens w).
Qed.

End OrchestratorFacts.

(** ** The fallback chain *)


(** ** Range of the result *)

Lemma fallbackDrop_bounds (track : SpotifyTrack) (len : Q) (conf : R)
    (m : string) (w w' : World) (r : DropAnalysis) :
  (0 <= duration_ms track)%Q -> (0 <= conf <= 1)%R ->
  fallbackDrop track len conf m w = (Ok r, w') ->
  inBounds (duration_ms track) r.
Proof.
  intros Hd Hc Hrun. rewrite fallbackDrop_run in Hrun.
  injection Hrun as <- _. unfold inBounds. cbn [dropStart confidence].
  destruct (floor_within (duration_ms track * 0.3) (duration_ms track))
    as [H0 H1]; [split; qlra|]. auto.
Qed.

Lemma buildResult_bounds (track : SpotifyTrack) (analysis : AudioAnalysis)
    (c : Cand.t) (m : string) (len : Q) (ov : option R) (w w' : World)
    (r : DropAnalysis) :
  (0 <= duration_ms track)%Q ->
  barsWithin (duration_ms track) analysis ->
  (searchStartMs (duration_ms track) / 1000 <= Cand.start c
     <= searchEndMs (duration_ms track) / 1000)%Q ->
  (forall conf, ov = Some conf -> (0 <= conf <= 1)%R) ->
  buildResult track analysis c m len ov w = (Ok r, w') ->
  inBounds (duration_ms track) r.
Proof.
  intros Hd Hbars [Hs He] Hov Hrun. rewrite buildResult_run in Hrun.
  destruct (bars analysis) as [bs|] eqn:Hbs; [|discriminate].
  injection Hrun as <- _. unfold inBounds. cbn [dropStart confidence].
  destruct (search_window_within _ Hd) as [Hlo Hhi].
  assert (Hsnap : (0 <= snapToDownbeat (Cand.start c) bs * 1000
                     <= duration_ms track)%Q).
  { destruct (snapToDownbeat_cases (Cand.start c) bs)
      as [-> | (b & Hb & Hcb & ->)].
    - set (s := (searchStartMs (duration_ms track) / 1000)%Q) in *.
      set (e := (searchEndMs (duration_ms track) / 1000)%Q) in *.
      split; Lqa.lra.
    - destruct (Hbars bs b Hbs Hb Hcb) as [Hb0 Hb1]. split; Lqa.lra. }
  destruct (floor_within _ _ Hsnap) as [H0 H1].
  split; [exact H0|]. split; [exact H1|].
  destruct ov as [conf|]; cbn [default].
  - now apply Hov.
  - apply squash_bounds.
Qed.

Lemma analyzeForDrop_bounds (track : SpotifyTrack) (analysis : AudioAnalysis)
    (off len : Q) (w w' : World) (r : DropAnalysis) :
  (0 <= duration_ms track)%Q ->
  barsWithin (duration_ms track) analysis ->
  analyzeForDrop track analysis off len w = (Ok r, w') ->
  inBounds (duration_ms track) r.
Proof.
  intros Hd Hbars Hrun.
  destruct (segments analysis) as [segs|] eqn:Hsegs;
    [|unfold analyzeForDrop, bind, property in Hrun;
      rewrite Hsegs in Hrun; discriminate].
  destruct (sections analysis) as [secs|] eqn:Hsecs;
    [|unfold analyzeForDrop, bind, property in Hrun;
      rewrite Hsegs, Hsecs in Hrun; discriminate].
  rewrite (analyzeForDrop_run _ _ _ _ _ _ _ Hsecs Hsegs) in Hrun.
  destruct (findDropInSections _ _ _ _) as [c|] eqn:E1.
  { apply findDropInSections_in_window in E1.
    eapply buildResult_bounds; eauto. discriminate. }
  destruct (findDropInSegments _ _ _ _) as [c|] eqn:E2.
  { apply findDropInSegments_in_window in E2.
    eapply buildResult_bounds; eauto. discriminate. }
  pose proof (loudestSegmentInRange_cases segs
                (searchStartMs (duration_ms track))
                (searchEndMs (duration_ms track))) as Hl.
  destruct (loudestSegmentInRange _ _ _) as [c|].
  - destruct Hl as (seg & _ & Hin & Hst & _). rewrite <- Hst in Hin.
    eapply buildResult_bounds; eauto.
    intros conf [= <-]. apply literal_confidence_bounds.
  - eapply fallbackDrop_bounds; eauto. apply literal_confidence_bounds.
Qed.

Lemma analyzeForDrop_confidence (track : SpotifyTrack)
    (analysis : AudioAnalysis) (off len : Q) (w w' : World)
    (r : DropAnalysis) :
  analyzeForDrop track analysis off len w = (Ok r, w') ->
  (0 <= confidence r <= 1)%R.
Proof.
  destruct (segments analysis) as [segs|] eqn:Hsegs;
    [|unfold analyzeForDrop, bind, property; rewrite Hsegs; discriminate].
  destruct (sections analysis) as [secs|] eqn:Hsecs;
    [|unfold analyzeForDrop, bind, property; rewrite Hsegs, Hsecs;
      discriminate].
  rewrite (analyzeForDrop_run _ _ _ _ _ _ _ Hsecs Hsegs).
  repeat match goal with
  | |- context [match ?x with Some _ => _ | None => _ end] => destruct x
  end;
  rewrite ?buildResult_run, ?fallbackDrop_run;
  try destruct (bars analysis); try discriminate;
  intros [= <- _]; cbn [confidence default];
  first [apply squash_bounds | apply literal_confidence_bounds].
Qed.

(** C1, as the code has it.  For every track and every response of the
    provider, a run that is not served from the cache returns a result
    whose confidence lies in [0, 1] on every path (scanner hit, loudest
    segment, hard fallback, error fallback), without any proviso; and
    whose [dropStart] lies in [0, duration_ms] provided the duration is at
    least 0 and every bar of confidence at least 0.5 in the response
    starts within the track.  The snapper does not clamp: without the
    proviso on the bars the bound on [dropStart] fails. *)
Theorem detectDrop_result_in_bounds :
  forall (numberToString : Q -> string) (track : SpotifyTrack) (off len : Q)
         (w : World) (cached : option DropAnalysis),
    getCachedAnalysis numberToString (id track) off len w = (Ok cached, w) ->
    usable cached (clock w) = None ->
    exists (r : DropAnalysis) (w' : World),
      detectDrop numberToString track off len w = (Ok r, w') /\
      (0 <= confidence r <= 1)%R /\
      ((0 <= duration_ms track)%Q ->
       (forall analysis bs b,
          spotify w (endpointOf track) = Ok analysis ->
          bars analysis = Some bs -> b ∈ bs ->
          (0.5 <= Bar.confidence b)%Q ->
          (0 <= Bar.start b)%Q /\
          (Bar.start b * 1000 <= duration_ms track)%Q) ->
       (0 <= dropStart r)%Z /\
       (inject_Z (dropStart r) <= duration_ms track)%Q).
Proof.
  intros toStr track off len w cached Hget Huse.
  rewrite (detectDrop_miss toStr track off len w cached Hget Huse).
  assert (Herr : forall w1, exists r w',
            fallbackDrop track len 0.3%R "error" w1 = (Ok r, w') /\
            (0 <= confidence r <= 1)%R /\
            ((0 <= duration_ms track)%Q ->
             (forall analysis bs b,
                spotify w (endpointOf track) = Ok analysis ->
                bars analysis = Some bs -> b ∈ bs ->
                (0.5 <= Bar.confidence b)%Q ->
                (0 <= Bar.start b)%Q /\
                (Bar.start b * 1000 <= duration_ms track)%Q) ->
             (0 <= dropStart r)%Z /\
             (inject_Z (dropStart r) <= duration_ms track)%Q)).
  { intros w1. eexists _, _. split; [apply fallbackDrop_run|].
    split; [apply literal_confidence_bounds|].
    intros Hd _.
    destruct (fallbackDrop_bounds track len 0.3%R "error" w1 w1 _ Hd
                (proj2 (proj2 literal_confidence_bounds))
                (fallbackDrop_run track len 0.3%R "error" w1))
      as (H0 & H1 & _).
    split; [exact H0|exact H1]. }
  destruct (spotify w (endpointOf track)) as [analysis|e] eqn:Hreply.
  - destruct (analyzeForDrop track analysis off len _) as [[r|e] w2] eqn:Ha.
    + eexists _, _. split; [reflexivity|].
      split; [exact (analyzeForDrop_confidence _ _ _ _ _ _ _ Ha)|].
      intros Hd Hbars.
      assert (Hin : inBounds (duration_ms track) r).
      { eapply analyzeForDrop_bounds; [exact Hd| |exact Ha].
        intros bs b. now apply Hbars. }
      destruct Hin as (H0 & H1 & _). split; [exact H0|exact H1].
    + apply Herr.
  - apply Herr.
Qed.

(** C10.  Beat snapping is not confined to the search window.  In a run
    that is not served from the cache, let a scanner produce a candidate,
    which starts inside the window, and let the response have bars of
    confidence at least 0.5, all of which start before the window.  Then
    [detectDrop] returns, by the scanner's method, the floor of the start
    of the bar of confidence at least 0.5 that is nearest to the
    candidate: a [dropStart] before 15 % of the duration, whereas the
    floor of the candidate's own start is less than 1 ms below the window
    at most. *)
Theorem detectDrop_snaps_outside_search_window :
  forall (numberToString : Q -> string) (track : SpotifyTrack) (off len : Q)
         (w : World) (cached : option DropAnalysis)
         (secs : list Sec.t) (segs : list Seg.t) (bs : list Bar.t)
         (c : Cand.t),
    let startMs := searchStartMs (duration_ms track) in
    let endMs := searchEndMs (duration_ms track) in
    let thresh := (median (map Seg.loudness_max segs) + off)%Q in
    getCachedAnalysis numberToString (id track) off len w = (Ok cached, w) ->
    usable cached (clock w) = None ->
    spotify w (endpointOf track) =
      Ok {| sections := Some secs; segments := Some segs; bars := Some bs |} ->
    (findDropInSections secs startMs endMs thresh = Some c \/
     findDropInSections secs startMs endMs thresh = None /\
     findDropInSegments segs startMs endMs thresh = Some c) ->
    (exists b, b ∈ bs /\ (0.5 <= Bar.confidence b)%Q) ->
    (forall b, b ∈ bs -> (0.5 <= Bar.confidence b)%Q ->
       (Bar.start b * 1000 < startMs)%Q) ->
    exists (r : DropAnalysis) (w' : World) (b : Bar.t),
      detectDrop numberToString track off len w = (Ok r, w') /\
      (method r = "sections" \/ method r = "segments") /\
      (startMs <= Cand.start c * 1000 <= endMs)%Q /\
      (startMs - 1 < inject_Z (Qfloor (Cand.start c * 1000)) <= endMs)%Q /\
      b ∈ bs /\ (0.5 <= Bar.confidence b)%Q /\
      (forall b', b' ∈ bs -> (0.5 <= Bar.confidence b')%Q ->
         (Qabs (Bar.start b - Cand.start c)
            <= Qabs (Bar.start b' - Cand.start c))%Q) /\
      (Bar.start b * 1000 < startMs)%Q /\
      dropStart r = Qfloor (Bar.start b * 1000) /\
      (inject_Z (dropStart r) < startMs)%Q.
Proof.
  intros toStr track off len w cached secs segs bs c startMs endMs thresh
         Hget Huse Hreply Hhit (b0 & Hb0 & Hc0) Hbefore.
  assert (Hwin : (startMs / 1000 <= Cand.start c <= endMs / 1000)%Q).
  { destruct Hhit as [Hsec | [_ Hseg]].
    - exact (findDropInSections_in_window _ _ _ _ _ Hsec).
    - exact (findDropInSegments_in_window _ _ _ _ _ Hseg). }
  assert (Hms : (startMs <= Cand.start c * 1000 <= endMs)%Q).
  { destruct Hwin as [Hs He]. unfold Qdiv in Hs, He.
    cbn [Qinv Qnum Qden] in Hs, He. split; Lqa.lra. }
  assert (Hsnap : exists b, b ∈ bs /\ (0.5 <= Bar.confidence b)%Q /\
            snapToDownbeat (Cand.start c) bs = Bar.start b /\
            forall b', b' ∈ bs -> (0.5 <= Bar.confidence b')%Q ->
              (Qabs (Bar.start b - Cand.start c)
                 <= Qabs (Bar.start b' - Cand.start c))%Q).
  { unfold snapToDownbeat.
    destruct (snapLoop_fresh (Cand.start c) bs)
      as [(Hnone & _) | (b & Hb & Hcb & Hr & Hmin)].
    - exfalso. now apply (Hnone b0).
    - exists b. auto. }
  destruct Hsnap as (b & Hb & Hcb & Hsnap & Hmin).
  assert (Hrun : exists m, (m = "sections" \/ m = "segments") /\
            analyzeForDrop track
              {| sections := Some secs; segments := Some segs;
                 bars := Some bs |} off len
              (afterRequest (endpointOf track) w) =
            (Ok {| trackId := id track;
                   dropStart := Qfloor (Bar.start b * 1000);
                   confidence := squash (Cand.score c);
                   method := m;
                   previewLength := len;
                   analysisTimestamp :=
                     clock (afterRequest (endpointOf track) w) |},
             afterRequest (endpointOf track) w)).
  { rewrite (analyzeForDrop_run track
               {| sections := Some secs; segments := Some segs;
                  bars := Some bs |} off len _ secs segs eq_refl eq_refl).
    fold startMs endMs thresh.
    destruct Hhit as [Hsec | [Hsec Hseg]].
    - exists "sections". split; [now left|].
      rewrite Hsec, buildResult_run. cbn [bars default].
      now rewrite Hsnap.
    - exists "segments". split; [now right|].
      rewrite Hsec, Hseg, buildResult_run. cbn [bars default].
      now rewrite Hsnap. }
  destruct Hrun as (m & Hm & Hrun).
  rewrite (detectDrop_miss toStr track off len w cached Hget Huse).
  rewrite Hreply, Hrun.
  eexists _, _, b. split; [reflexivity|]. cbn [method dropStart].
  split; [exact Hm|]. split; [exact Hms|].
  pose proof (Qfloor_le (Cand.start c * 1000)) as Hfl.
  pose proof (Qlt_floor (Cand.start c * 1000)) as Hfu.
  assert (Hone : (inject_Z (Qfloor (Cand.start c * 1000) + 1)
                  == inject_Z (Qfloor (Cand.start c * 1000)) + 1)%Q)
    by (rewrite inject_Z_plus; reflexivity).
  split; [split; Lqa.lra|].
  split; [exact Hb|]. split; [exact Hcb|]. split; [exact Hmin|].
  pose proof (Hbefore b Hb Hcb) as Hbar. split; [exact Hbar|].
  split; [reflexivity|].
  pose proof (Qfloor_le (Bar.start b * 1000)). Lqa.lra.
Qed.

(** ** The theorems at concrete inputs *)

(** A response without its [segments] array makes the analysis throw; the
    throw is caught and the error fallback returned. *)
Example detectDrop_absorbs_malformed_response :
  exists r w',
    detectDrop Ex.showNumber Ex.track 3 20000
      (Ex.world ∅ true
         (Ok {| sections := Some Ex.tiedSections; segments := None;
                bars := Some Ex.earlyBars |}) 5000) = (Ok r, w') /\
    method r = "error" /\ dropStart r = 60000%Z.
Proof. eexists _, _. split; [reflexivity|]. split; reflexivity. Qed.

(** With an offset of -3 dB both scanners have a hit on [Ex.track], the
    segment scanner's of the higher score (66.4 against 7.5); the section
    scanner's is used all the same. *)
Example analyzeForDrop_prefers_sections :
  exists cs cg r w',
    findDropInSections Ex.tiedSections 30000 140000 (-9 + -3) = Some cs /\
    findDropInSegments Ex.risingSegments 30000 140000 (-9 + -3) = Some cg /\
    (Cand.score cs < Cand.score cg)%Q /\
    analyzeForDrop Ex.track (Ex.analysis Ex.earlyBars) (-3) 20000
      (Ex.world ∅ true (Ok (Ex.analysis Ex.earlyBars)) 5000) = (Ok r, w') /\
    method r = "sections" /\
    confidence r = squash (Cand.score cs).
Proof.
  eexists _, _, _, _.
  split; [reflexivity|]. split; [reflexivity|]. split; [reflexivity|].
  split.
  - match goal with
    | |- ?lhs = _ => let v := eval hnf in lhs in change lhs with v
    end.
    reflexivity.
  - split; reflexivity.
Qed.

(** C1 at [Ex.track], with a strong bar at 28 s and a weak one at 36 s. *)
Lemma detectDrop_result_in_bounds_witness :
  exists r w',
    detectDrop Ex.showNumber Ex.track 3 20000
      (Ex.world ∅ true (Ok (Ex.analysis Ex.earlyBars)) 5000) = (Ok r, w') /\
    (0 <= confidence r <= 1)%R /\
    (0 <= dropStart r)%Z /\
    (inject_Z (dropStart r) <= duration_ms Ex.track)%Q.
Proof.
  assert (Hget : getCachedAnalysis Ex.showNumber (id Ex.track) 3 20000
                   (Ex.world ∅ true (Ok (Ex.analysis Ex.earlyBars)) 5000)
                 = (Ok None,
                    Ex.world ∅ true (Ok (Ex.analysis Ex.earlyBars)) 5000))
    by reflexivity.
  destruct (detectDrop_result_in_bounds Ex.showNumber Ex.track 3 20000
              (Ex.world ∅ true (Ok (Ex.analysis Ex.earlyBars)) 5000) None
              Hget eq_refl) as (r & w' & Hrun & Hconf & Hstart).
  exists r, w'. split; [exact Hrun|]. split; [exact Hconf|].
  apply Hstart.
  - discriminate.
  - intros analysis bs b [= <-] [= <-] Hb _.
    apply elem_of_cons in Hb as [-> | Hb];
      [|apply list_elem_of_singleton in Hb as ->];
      split; discriminate.
Defined.

(** C3 at [Ex.track], with an empty store and a provider that rejects. *)
Lemma detectDrop_provider_failure_witness :
  detectDrop Ex.showNumber Ex.track 3 20000
    (Ex.world ∅ true (Throw RequestError) 5000) =
  (Ok {| trackId := "t1";
         dropStart := 60000;
         confidence := 0.3%R;
         method := "error";
         previewLength := 20000;
         analysisTimestamp := 5150 |},
   afterRequest "/audio-analysis/t1"
     (Ex.world ∅ true (Throw RequestError) 5000)).
Proof.
  apply (detectDrop_provider_failure Ex.showNumber Ex.track 3 20000
           (Ex.world ∅ true (Throw RequestError) 5000) None RequestError);
    reflexivity.
Defined.

(** C4 at [Ex.track], with an empty store that can be opened. *)
Lemma detectDrop_caches_analysis_results_witness :
  exists r w',
    detectDrop Ex.showNumber Ex.track 3 20000
      (Ex.world ∅ true (Ok (Ex.analysis Ex.earlyBars)) 5000) = (Ok r, w') /\
    method r = "sections" /\
    store w' !! Ex.key = Some {| value := r; cacheKey := Ex.key |}.
Proof.
  assert (Hget : getCachedAnalysis Ex.showNumber (id Ex.track) 3 20000
                   (Ex.world ∅ true (Ok (Ex.analysis Ex.earlyBars)) 5000)
                 = (Ok None,
                    Ex.world ∅ true (Ok (Ex.analysis Ex.earlyBars)) 5000))
    by reflexivity.
  destruct (detectDrop_caches_analysis_results Ex.showNumber Ex.track 3 20000
              (Ex.world ∅ true (Ok (Ex.analysis Ex.earlyBars)) 5000) None
              Hget eq_refl)
    as (r & w' & Hrun & Hresult & Hstored & _ & _).
  exists r, w'. split; [exact Hrun|].
  assert (Hm : method r = "sections").
  { eassert (Ha : analyzeForDrop Ex.track (Ex.analysis Ex.earlyBars) 3 20000
                    (afterRequest (endpointOf Ex.track)
                       (Ex.world ∅ true (Ok (Ex.analysis Ex.earlyBars)) 5000))
                  = (Ok _, _)).
    { match goal with
      | |- ?lhs = _ => let v := eval hnf in lhs in change lhs with v
      end.
      reflexivity. }
    rewrite (Hresult _ _ _ eq_refl Ha). reflexivity. }
  split; [exact Hm|].
  apply Hstored; [|reflexivity]. rewrite Hm. discriminate.
Defined.


(** C6 at [Ex.track], with [Ex.stored] cached 4 s before the call. *)
Lemma detectDrop_cache_hit_within_retention_witness :
  detectDrop Ex.showNumber Ex.track 3 20000
    (Ex.world Ex.cache true (Throw RequestError) 5000) =
  (Ok Ex.stored, Ex.world Ex.cache true (Throw RequestError) 5000).
Proof.
  destruct (detectDrop_cache_hit_within_retention Ex.showNumber Ex.track
              3 20000 (Ex.world Ex.cache true (Throw RequestError) 5000))
    as [Hhit _].
  apply (Hhit {| value := Ex.stored; cacheKey := Ex.key |}); reflexivity.
Defined.

(** C10 at [Ex.track]: the section scanner's candidate at 35 s, inside the
    window from 30 s to 140 s, is snapped to the bar at 28 s. *)
Lemma detectDrop_snaps_outside_search_window_witness :
  let startMs := searchStartMs (duration_ms Ex.track) in
  let endMs := searchEndMs (duration_ms Ex.track) in
  let thresh := (median (map Seg.loudness_max Ex.risingSegments) + 3)%Q in
  exists c,
    findDropInSections Ex.tiedSections startMs endMs thresh = Some c /\
    Cand.start c = 35%Q /\ (startMs == 30000)%Q /\ (endMs == 140000)%Q /\
    exists r w' b,
      detectDrop Ex.showNumber Ex.track 3 20000
        (Ex.world ∅ true (Ok (Ex.analysis Ex.earlyBars)) 5000) = (Ok r, w') /\
      (method r = "sections" \/ method r = "segments") /\
      (startMs <= Cand.start c * 1000 <= endMs)%Q /\
      (startMs - 1 < inject_Z (Qfloor (Cand.start c * 1000)) <= endMs)%Q /\
      b ∈ Ex.earlyBars /\ (0.5 <= Bar.confidence b)%Q /\
      (forall b', b' ∈ Ex.earlyBars -> (0.5 <= Bar.confidence b')%Q ->
         (Qabs (Bar.start b - Cand.start c)
            <= Qabs (Bar.start b' - Cand.start c))%Q) /\
      (Bar.start b * 1000 < startMs)%Q /\
      dropStart r = Qfloor (Bar.start b * 1000) /\
      (inject_Z (dropStart r) < startMs)%Q.
Proof.
  intros startMs endMs thresh.
  eexists. split; [reflexivity|]. split; [reflexivity|].
  split; [reflexivity|]. split; [reflexivity|].
  apply (detectDrop_snaps_outside_search_window Ex.showNumber Ex.track
           3 20000 (Ex.world ∅ true (Ok (Ex.analysis Ex.earlyBars)) 5000)
           None Ex.tiedSections Ex.risingSegments Ex.earlyBars).
  - reflexivity.
  - reflexivity.
  - reflexivity.
  - left. reflexivity.
  - exists (Bar.mk 28 2 0.9). split; [apply list_elem_of_here|discriminate].
  - intros b Hb Hcb.
    apply elem_of_cons in Hb as [-> | Hb];
      [reflexivity|apply list_elem_of_singleton in Hb as ->].
    exfalso. apply Hcb. reflexivity.
Defined.

(** ** Where the claims fail *)

(** Evaluates the run on the left to its value before comparing. *)
Ltac run_to_value :=
  match goal with
  | |- ?lhs = _ => let v := eval hnf in lhs in change lhs with v
  end;
  reflexivity.

(** C1: the claim fails.  For the 200 s track [Ex.track] and a response
    whose only bar of confidence at least 0.5 starts at 500 s, the section
    scanner's hit at 35 s is snapped to that bar: [detectDrop] returns a
    [dropStart] of 500000 ms, beyond the duration of 200000 ms. *)
Lemma detectDrop_dropStart_beyond_duration :
  exists r w',
    detectDrop Ex.showNumber Ex.track 3 20000
      (Ex.world ∅ true (Ok (Ex.analysis Ex.lateBars)) 5000) = (Ok r, w') /\
    (0 <= duration_ms Ex.track)%Q /\
    method r = "sections" /\
    dropStart r = 500000%Z /\
    ~ (inject_Z (dropStart r) <= duration_ms Ex.track)%Q.
Proof.
  eexists _, _. split; [run_to_value|].
  split; [discriminate|]. split; [reflexivity|]. split; [reflexivity|].
  intros H. apply H. reflexivity.
Qed.

(** C3: the claim fails.  When the provider call fails for the 200 s
    track [Ex.track], [detectDrop] returns a [dropStart] of 60000 ms, which
    is floor(duration_ms * 0.3), not the 40000 ms of floor(duration_ms *
    0.2). *)
Lemma detectDrop_error_fallback_is_30_percent :
  exists r w',
    detectDrop Ex.showNumber Ex.track 3 20000
      (Ex.world ∅ true (Throw RequestError) 5000) = (Ok r, w') /\
    dropStart r = 60000%Z /\
    Qfloor (duration_ms Ex.track * 0.2) = 40000%Z /\
    dropStart r <> Qfloor (duration_ms Ex.track * 0.2).
Proof.
  eexists _, _. split; [run_to_value|].
  split; [reflexivity|]. split; [reflexivity|]. discriminate.
Qed.

(** C4: the claim fails.  With an empty store that can be opened, a run
    in which the provider call fails returns the error fallback and leaves
    the store empty; and with a store that cannot be opened, a run in
    which the analysis succeeds returns its result and leaves the store
    empty as well.  In both, the run is not served from the cache and the
    store does not hold the returned result under the key. *)
Lemma detectDrop_result_not_cached :
  (exists r w',
     detectDrop Ex.showNumber Ex.track 3 20000
       (Ex.world ∅ true (Throw RequestError) 5000) = (Ok r, w') /\
     method r = "error" /\
     store w' !! Ex.key = None) /\
  (exists r w',
     detectDrop Ex.showNumber Ex.track 3 20000
       (Ex.world ∅ false (Ok (Ex.analysis Ex.earlyBars)) 5000) = (Ok r, w') /\
     method r = "sections" /\
     store w' !! Ex.key = None).
Proof.
  split; eexists _, _; (split; [run_to_value|]); split; reflexivity.
Qed.

(** C6: the claim fails.  The store holds, under the key of the call, the
    result [Ex.stored] computed at time 1000.  At time 1000 + 7 days the
    entry's age does not exceed 7 days, yet [detectDrop] invokes the
    provider and returns a fresh result, not the cached one.  And when the
    store cannot be opened, the same happens whatever the entry's age. *)
Lemma detectDrop_entry_of_7_days_is_stale :
  (exists r w',
     detectDrop Ex.showNumber Ex.track 3 20000
       (Ex.world Ex.cache true (Ok (Ex.analysis Ex.earlyBars)) 604801000)
     = (Ok r, w') /\
     Ex.cache !! Ex.key = Some {| value := Ex.stored; cacheKey := Ex.key |} /\
     (604801000 - analysisTimestamp Ex.stored = 7 * 24 * 60 * 60 * 1000)%Z /\
     dropStart r = 28000%Z /\ r <> Ex.stored /\
     requests w' = ["/audio-analysis/t1"]) /\
  (exists r w',
     detectDrop Ex.showNumber Ex.track 3 20000
       (Ex.world Ex.cache false (Ok (Ex.analysis Ex.earlyBars)) 5000)
     = (Ok r, w') /\
     (5000 - analysisTimestamp Ex.stored < 7 * 24 * 60 * 60 * 1000)%Z /\
     dropStart r = 28000%Z /\ r <> Ex.stored /\
     requests w' = ["/audio-analysis/t1"]).
Proof.
  split; eexists _, _; (split; [run_to_value|]).
  - split; [reflexivity|]. split; [reflexivity|]. split; [reflexivity|].
    split; [|reflexivity].
    intros H. apply (f_equal dropStart) in H. discriminate H.
  - split; [reflexivity|]. split; [reflexivity|].
    split; [|reflexivity].
    intros H. apply (f_equal dropStart) in H. discriminate H.
Qed.

(** * Further properties of the detector *)

(** ** The median *)

Lemma insertNum_perm (x : Q) (l : list Q) :
  Permutation (x :: l) (insertNum x l).
Proof.
  induction l as [|y l IH]; cbn [insertNum]; [reflexivity|].
  destruct (Num.leb x y); [reflexivity|].
  rewrite perm_swap. now apply perm_skip.
Qed.

Lemma sortNum_perm (nums : list Q) : Permutation nums (sortNum nums).
Proof.
  induction nums as [|x nums IH]; cbn [sortNum foldr]; [reflexivity|].
  rewrite <- insertNum_perm. now apply perm_skip.
Qed.

Lemma insertNum_sorted (x : Q) (l : list Q) :
  StronglySorted Qle l -> StronglySorted Qle (insertNum x l).
Proof.
  induction l as [|y l IH]; intros Hs; cbn [insertNum].
  - repeat constructor.
  - apply StronglySorted_inv in Hs as [Hl Hy].
    destruct (Num.leb x y) eqn:E.
    + apply leb_le in E. constructor; [now constructor|].
      constructor; [exact E|].
      eapply Forall_impl; [exact Hy|].
      intros z Hz. eapply Qle_trans; eassumption.
    + apply leb_gt in E. constructor; [now apply IH|].
      rewrite <- (insertNum_perm x l).
      constructor; [now apply Qlt_le_weak|exact Hy].
Qed.

Lemma sortNum_sorted (nums : list Q) : StronglySorted Qle (sortNum nums).
Proof.
  induction nums as [|x nums IH]; cbn [sortNum foldr]; [constructor|].
  now apply insertNum_sorted.
Qed.

Lemma filter_length_perm (p : Q -> bool) (l l' : list Q) :
  Permutation l l' ->
  length (List.filter p l) = length (List.filter p l').
Proof.
  induction 1 as [|x l l' _ IH|x y l|l l' l'' _ IH1 _ IH2]; cbn [List.filter].
  - reflexivity.
  - destruct (p x); cbn [length]; congruence.
  - destruct (p x), (p y); reflexivity.
  - congruence.
Qed.

Lemma filter_length_all (p : Q -> bool) (l : list Q) :
  Forall (fun x => p x = true) l -> length (List.filter p l) = length l.
Proof.
  induction 1 as [|x l Hx _ IH]; cbn [List.filter]; [reflexivity|].
  rewrite Hx. cbn [length]. congruence.
Qed.

(** In a sorted list, everything up to a position is at most any bound of
    that position's element, and everything from it on is at least any
    number below it. *)
Lemma sorted_counts (l1 l2 : list Q) (a m : Q) :
  StronglySorted Qle (l1 ++ a :: l2) ->
  ((a <= m)%Q ->
     (S (length l1) <=
      length (List.filter (fun x => Num.leb x m) (l1 ++ a :: l2)))%nat) /\
  ((m <= a)%Q ->
     (S (length l2) <=
      length (List.filter (fun x => Num.leb m x) (l1 ++ a :: l2)))%nat).
Proof.
  intros Hs. rewrite !List.filter_app, !length_app. split; intros Hm.
  - rewrite (filter_length_all _ l1).
    + cbn [List.filter]. apply leb_le in Hm. rewrite Hm. cbn [length]. lia.
    + apply Forall_forall. intros x Hx. apply leb_le.
      eapply Qle_trans; [|exact Hm].
      eapply (StronglySorted_app_1_elem_of Qle l1 (a :: l2)); [exact Hs| |].
      * exact Hx.
      * apply list_elem_of_here.
  - apply StronglySorted_app_1_r in Hs.
    rewrite (filter_length_all _ (a :: l2)); [cbn [length]; lia|].
    apply StronglySorted_inv in Hs as [_ Hall].
    constructor.
    + now apply leb_le.
    + eapply Forall_impl; [exact Hall|].
      intros z Hz. apply leb_le. eapply Qle_trans; eassumption.
Qed.

Lemma sorted_middle_pair (l : list Q) (k : nat) :
  length l = (2 * k)%nat -> (0 < k)%nat -> StronglySorted Qle l ->
  exists l1 l2,
    l = l1 ++ nth (k - 1) l 0%Q :: nth k l 0%Q :: l2 /\
    length l1 = (k - 1)%nat /\
    (nth (k - 1) l 0 <= nth k l 0)%Q.
Proof.
  intros Hlen Hk Hs.
  assert (Hmid : (k - 1 < length l)%nat) by lia.
  destruct (nth_split l 0%Q Hmid) as (l1 & l2 & Hl & Hl1).
  set (a := nth (k - 1) l 0%Q) in *.
  destruct l2 as [|b l2].
  { apply (f_equal (@length Q)) in Hl.
    rewrite length_app in Hl. cbn [length] in Hl. lia. }
  assert (Hb : nth k l 0%Q = b).
  { rewrite Hl. replace k with (S (length l1)) by lia.
    rewrite app_nth2 by lia.
    replace (S (length l1) - length l1)%nat with 1%nat by lia.
    reflexivity. }
  rewrite Hb. exists l1, l2. split; [exact Hl|]. split; [exact Hl1|].
  rewrite Hl in Hs. apply StronglySorted_app_1_r in Hs.
  apply StronglySorted_inv in Hs as [_ Hall].
  now apply Forall_inv in Hall.
Qed.

(** X1.  At least half of the numbers are at most their median and at
    least half are at least their median; the median of no numbers is 0. *)
Theorem median_splits_in_halves :
  forall nums : list Q,
    let m := median nums in
    (length nums
       <= 2 * length (List.filter (fun x => Num.leb x m) nums))%nat /\
    (length nums
       <= 2 * length (List.filter (fun x => Num.leb m x) nums))%nat /\
    (nums = [] -> m = 0%Q).
Proof.
  intros nums m. split; [|split]; [| |intros ->; reflexivity];
    (destruct nums as [|x0 rest]; [cbn; lia|]).
  all: pose proof (sortNum_perm (x0 :: rest)) as Hp;
       pose proof (sortNum_sorted (x0 :: rest)) as Hs;
       rewrite (filter_length_perm _ _ _ Hp);
       rewrite (Permutation_length Hp);
       subst m; unfold median;
       set (l := sortNum (x0 :: rest)) in *;
       assert (Hn : (0 < length l)%nat)
         by (rewrite <- (Permutation_length Hp); cbn; lia);
       destruct (Nat.odd (length l)) eqn:Hodd.
  - assert (Hmid : (length l / 2 < length l)%nat)
      by (apply Nat.div_lt; lia).
    destruct (nth_split l 0%Q Hmid) as (l1 & l2 & Hl & Hlen).
    set (a := nth (length l / 2) l 0%Q) in *.
    rewrite Hl in Hs.
    destruct (sorted_counts l1 l2 a a Hs) as [Hle _].
    specialize (Hle (Qle_refl a)). rewrite <- Hl in Hle.
    apply Nat.odd_spec in Hodd as [k Hk].
    assert (length l / 2 = k)%nat
      by (rewrite Hk, Nat.mul_comm, Nat.div_add_l by lia; cbn; lia).
    lia.
  - assert (Heven : Nat.even (length l) = true)
      by (rewrite <- Nat.negb_odd, Hodd; reflexivity).
    apply Nat.even_spec in Heven as [k Hk].
    assert (Hdiv : (length l / 2 = k)%nat)
      by (rewrite Hk, Nat.mul_comm, Nat.div_mul by lia; reflexivity).
    rewrite Hdiv.
    destruct (sorted_middle_pair l k Hk ltac:(lia) Hs)
      as (l1 & l2 & Hl & Hl1 & Hab).
    set (a := nth (k - 1) l 0%Q) in *. set (b := nth k l 0%Q) in *.
    rewrite Hl in Hs.
    destruct (sorted_counts l1 (b :: l2) a ((a + b) / 2) Hs) as [Hle _].
    rewrite <- Hl in Hle.
    assert (a <= (a + b) / 2)%Q as Ham by qlra.
    specialize (Hle Ham). lia.
  - assert (Hmid : (length l / 2 < length l)%nat)
      by (apply Nat.div_lt; lia).
    destruct (nth_split l 0%Q Hmid) as (l1 & l2 & Hl & Hlen).
    set (a := nth (length l / 2) l 0%Q) in *.
    rewrite Hl in Hs.
    destruct (sorted_counts l1 l2 a a Hs) as [_ Hge].
    specialize (Hge (Qle_refl a)). rewrite <- Hl in Hge.
    apply (f_equal (@length Q)) in Hl.
    rewrite length_app in Hl. cbn [length] in Hl.
    apply Nat.odd_spec in Hodd as [k Hk].
    assert (length l / 2 = k)%nat
      by (rewrite Hk, Nat.mul_comm, Nat.div_add_l by lia; cbn; lia).
    lia.
  - assert (Heven : Nat.even (length l) = true)
      by (rewrite <- Nat.negb_odd, Hodd; reflexivity).
    apply Nat.even_spec in Heven as [k Hk].
    assert (Hdiv : (length l / 2 = k)%nat)
      by (rewrite Hk, Nat.mul_comm, Nat.div_mul by lia; reflexivity).
    rewrite Hdiv.
    destruct (sorted_middle_pair l k Hk ltac:(lia) Hs)
      as (l1 & l2 & Hl & Hl1 & Hab).
    set (a := nth (k - 1) l 0%Q) in *. set (b := nth k l 0%Q) in *.
    assert (Hl' : l = (l1 ++ [a]) ++ b :: l2)
      by (rewrite <- app_assoc; exact Hl).
    rewrite Hl' in Hs.
    destruct (sorted_counts (l1 ++ [a]) l2 b ((a + b) / 2) Hs) as [_ Hge].
    rewrite <- Hl' in Hge.
    assert ((a + b) / 2 <= b)%Q as Hmb by qlra.
    specialize (Hge Hmb).
    apply (f_equal (@length Q)) in Hl.
    rewrite length_app in Hl. cbn [length] in Hl. lia.
Qed.

(** ** The confidence normalizer *)

Lemma squash_rate : (- 0.6 = - (6 / 10))%R.
Proof. cbv [Q2R]. cbn. rlra. Qed.

Lemma squash_lt (x y : Q) : (x < y)%Q -> (squash x < squash y)%R.
Proof.
  intros Hxy. apply Qlt_Rlt in Hxy. unfold squash. rewrite squash_rate.
  assert (He : (exp (- (6 / 10) * (Q2R y - 5))
                < exp (- (6 / 10) * (Q2R x - 5)))%R)
    by (apply exp_increasing; rlra).
  pose proof (exp_pos (- (6 / 10) * (Q2R y - 5))) as Hy.
  unfold Rdiv at 1 3. rewrite !Rmult_1_l.
  apply Rinv_0_lt_contravar; rlra.
Qed.

Lemma squash_le (x y : Q) : (x <= y)%Q -> (squash x <= squash y)%R.
Proof.
  intros Hxy. apply Qle_lt_or_eq in Hxy as [Hlt | Heq].
  - apply Rlt_le. now apply squash_lt.
  - apply Qeq_eqR in Heq. unfold squash. rewrite Heq. apply Rle_refl.
Qed.

Lemma squash_at_5 : squash 5 = (1 / 2)%R.
Proof.
  unfold squash.
  replace (- 0.6 * (Q2R 5 - 5))%R with 0%R.
  - rewrite exp_0. rlra.
  - replace (Q2R 5) with 5%R by (cbv [Q2R]; cbn; rlra). rlra.
Qed.

(** X2.  [squash] never inverts the order of scores: a score at least as
    high gives a confidence at least as high.  Its values lie in [0, 1],
    it is 1/2 at a score of 5, and at least 1/2 from there on.  Order and
    bounds are not strict: in the double arithmetic of the code the value
    rounds to 1 for scores from about 67 on. *)
Theorem squash_monotone :
  forall x y : Q,
    ((x <= y)%Q -> (squash x <= squash y)%R) /\
    (0 <= squash x <= 1)%R /\
    squash 5 = (1 / 2)%R /\
    ((5 <= x)%Q -> (1 / 2 <= squash x)%R).
Proof.
  intros x y. split; [apply squash_le|].
  split; [apply squash_bounds|]. split; [exact squash_at_5|].
  intros H5. rewrite <- squash_at_5. now apply squash_le.
Qed.

(** ** The loudest-segment fallback *)

Lemma loudestSegmentInRange_loudestInRange (segs : list Seg.t)
    (startMs endMs : Q) :
  loudestSegmentInRange segs startMs endMs =
  (fun seg => Cand.mk (Seg.start seg) 0.6) <$>
    loudestInRange (startMs / 1000) (endMs / 1000) segs.
Proof.
  unfold loudestSegmentInRange, loudestInRange.
  destruct (List.filter _ segs); reflexivity.
Qed.

Lemma loudestInRange_snoc (s e : Q) (segs : list Seg.t) (x : Seg.t) :
  loudestInRange s e (segs ++ [x]) =
  if inRangeb s e x then
    Some (match loudestInRange s e segs with
          | None => x
          | Some a => louder a x
          end)
  else loudestInRange s e segs.
Proof.
  unfold loudestInRange. rewrite List.filter_app. cbn [List.filter].
  destruct (inRangeb s e x).
  - destruct (List.filter (inRangeb s e) segs) as [|first rest];
      [reflexivity|].
    cbn [app]. now rewrite foldl_app.
  - now rewrite app_nil_r.
Qed.

Lemma loudestInRange_first_loudest (s e : Q) (segs : list Seg.t) :
  let inWindow (seg : Seg.t) := (s <= Seg.start seg <= e)%Q in
  match loudestInRange s e segs with
  | None => forall seg, seg ∈ segs -> ~ inWindow seg
  | Some seg =>
      exists i, segs !! i = Some seg /\ inWindow seg /\
        forall j seg', segs !! j = Some seg' -> inWindow seg' ->
          (Seg.loudness_max seg' <= Seg.loudness_max seg)%Q /\
          ((j < i)%nat ->
           (Seg.loudness_max seg' < Seg.loudness_max seg)%Q)
  end.
Proof.
  intros inWindow. induction segs as [|x l IH] using rev_ind.
  - intros seg Hseg. inversion Hseg.
  - rewrite loudestInRange_snoc.
    assert (Hlook : forall j seg', (l ++ [x]) !! j = Some seg' ->
              l !! j = Some seg' \/ (j = length l /\ seg' = x)).
    { intros j seg' Hj.
      destruct (decide (j < length l)%nat) as [Hlt|Hge].
      - left. now rewrite lookup_app_l in Hj.
      - right. rewrite lookup_app_r in Hj by lia.
        destruct (j - length l)%nat as [|k] eqn:Hk; [|destruct k; discriminate].
        injection Hj as <-. split; [lia|reflexivity]. }
    destruct (inRangeb s e x) eqn:Hx.
    + apply inRangeb_true in Hx.
      destruct (loudestInRange s e l) as [a|].
      * destruct IH as (i & Hi & Ha & Hall).
        unfold louder.
        destruct (Num.ltb (Seg.loudness_max a) (Seg.loudness_max x)) eqn:E.
        -- apply ltb_lt in E. exists (length l).
           split; [now rewrite lookup_app_r, Nat.sub_diag by lia|].
           split; [exact Hx|]. intros j seg' Hj Hin.
           apply Hlook in Hj as [Hj | (-> & ->)].
           ++ destruct (Hall j seg' Hj Hin) as [Hle _].
              split; [|intros _]; Lqa.lra.
           ++ split; [apply Qle_refl|lia].
        -- apply ltb_ge in E. exists i.
           split; [now apply lookup_app_l_Some|]. split; [exact Ha|].
           intros j seg' Hj Hin. apply Hlook in Hj as [Hj | (-> & ->)].
           ++ now apply Hall.
           ++ split; [exact E|]. apply lookup_lt_Some in Hi. lia.
      * exists (length l).
        split; [now rewrite lookup_app_r, Nat.sub_diag by lia|].
        split; [exact Hx|]. intros j seg' Hj Hin.
        apply Hlook in Hj as [Hj | (-> & ->)].
        -- exfalso. apply (IH seg'); [|exact Hin].
           apply list_elem_of_lookup. eauto.
        -- split; [apply Qle_refl|lia].
    + assert (Hnot : ~ inWindow x).
      { intros Hin. apply inRangeb_true in Hin. congruence. }
      destruct (loudestInRange s e l) as [a|].
      * destruct IH as (i & Hi & Ha & Hall). exists i.
        split; [now apply lookup_app_l_Some|]. split; [exact Ha|].
        intros j seg' Hj Hin. apply Hlook in Hj as [Hj | (-> & ->)].
        -- now apply Hall.
        -- contradiction.
      * intros seg Hseg. apply elem_of_app in Hseg as [Hseg | Hseg].
        -- now apply IH.
        -- apply list_elem_of_singleton in Hseg as ->. exact Hnot.
Qed.

(** X3.  [loudestSegmentInRange] yields nothing exactly when no segment
    starts in the window; otherwise it yields the start of the loudest
    segment that starts in the window, the earliest one when several are
    equally loud, with the score 0.6.  Unlike the scanners it considers
    the first segment of the input too. *)
Theorem loudestSegmentInRange_first_loudest :
  forall (segs : list Seg.t) (startMs endMs : Q),
    let inWindow (seg : Seg.t) :=
      (startMs / 1000 <= Seg.start seg <= endMs / 1000)%Q in
    match loudestSegmentInRange segs startMs endMs with
    | None => forall seg, seg ∈ segs -> ~ inWindow seg
    | Some c =>
        Cand.score c = 0.6%Q /\
        exists i seg,
          segs !! i = Some seg /\ inWindow seg /\
          Cand.start c = Seg.start seg /\
          forall j seg', segs !! j = Some seg' -> inWindow seg' ->
            (Seg.loudness_max seg' <= Seg.loudness_max seg)%Q /\
            ((j < i)%nat ->
             (Seg.loudness_max seg' < Seg.loudness_max seg)%Q)
    end.
Proof.
  intros segs startMs endMs inWindow.
  rewrite loudestSegmentInRange_loudestInRange.
  pose proof (loudestInRange_first_loudest
                (startMs / 1000) (endMs / 1000) segs) as H.
  destruct (loudestInRange _ _ segs) as [seg|]; cbn.
  - destruct H as (i & Hi & Hin & Hall).
    split; [reflexivity|]. exists i, seg. auto.
  - exact H.
Qed.

(** ** The result cache *)

Section CacheFacts.

Variable numberToString : Q -> string.

(** X4.  Reading back what [cacheAnalysis] wrote: after an entry is
    written under the key of (track id, loudness offset, preview length),
    [getCachedAnalysis] with the same three returns its value when the
    store can be opened and [null] when it cannot (the write was dropped);
    a lookup under any other key returns what it returned before. *)
Theorem getCachedAnalysis_after_cacheAnalysis :
  forall (trackId : string) (off len : Q) (r : DropAnalysis) (w : World),
    let key := getCacheKey numberToString trackId off len in
    let w' := snd (cacheAnalysis {| value := r; cacheKey := key |} w) in
    fst (getCachedAnalysis numberToString trackId off len w') =
      Ok (if idbOpens w then Some r else None) /\
    forall trackId' off' len',
      getCacheKey numberToString trackId' off' len' <> key ->
      fst (getCachedAnalysis numberToString trackId' off' len' w') =
      fst (getCachedAnalysis numberToString trackId' off' len' w).
Proof.
  intros trackId off len r w key w'. subst w'.
  unfold cacheAnalysis. rewrite !getCachedAnalysis_run.
  destruct (idbOpens w) eqn:Hopen; cbn [snd fst].
  - change (idbOpens (storePut _ w)) with (idbOpens w). rewrite Hopen.
    split.
    + unfold storeGet. cbn [storePut store cacheKey]. fold key.
      now rewrite lookup_insert_eq.
    + intros trackId' off' len' Hne. rewrite !getCachedAnalysis_run.
      change (idbOpens (storePut _ w)) with (idbOpens w). rewrite Hopen.
      cbn [fst]. unfold storeGet. cbn [storePut store cacheKey].
      now rewrite lookup_insert_ne by congruence.
  - rewrite Hopen. split; [reflexivity|]. intros. reflexivity.
Qed.

(** Every run is a hit or a miss. *)
Lemma detectDrop_run (track : SpotifyTrack) (off len : Q) (w : World) :
  let key := getCacheKey numberToString (id track) off len in
  let cached := if idbOpens w then storeGet key w else None in
  detectDrop numberToString track off len w =
  match usable cached (clock w) with
  | Some hit => (Ok hit, w)
  | None =>
      let w1 := afterRequest (endpointOf track) w in
      match spotify w (endpointOf track) with
      | Ok analysis =>
          match analyzeForDrop track analysis off len w1 with
          | (Ok r, _) =>
              (Ok r,
               if idbOpens w
               then storePut {| value := r; cacheKey := key |} w1
               else w1)
          | (Throw _, _) => fallbackDrop track len 0.3%R "error" w1
          end
      | Throw _ => fallbackDrop track len 0.3%R "error" w1
      end
  end.
Proof.
  intros key cached.
  pose proof (getCachedAnalysis_run numberToString (id track) off len w)
    as Hget.
  fold key cached in Hget.
  destruct (usable cached (clock w)) as [hit|] eqn:Huse.
  - exact (detectDrop_hit numberToString track off len w cached hit
             Hget Huse).
  - exact (detectDrop_miss numberToString track off len w cached
             Hget Huse).
Qed.

(** X5.  A run touches the store only under its own key, never removes an
    entry, and asks the provider at most once, for the analysis of its
    track. *)
Theorem detectDrop_footprint :
  forall (track : SpotifyTrack) (off len : Q) (w : World),
    let key := getCacheKey numberToString (id track) off len in
    let w' := snd (detectDrop numberToString track off len w) in
    (forall k, k <> key -> store w' !! k = store w !! k) /\
    (forall k, is_Some (store w !! k) -> is_Some (store w' !! k)) /\
    (requests w' = requests w \/
     requests w' = endpointOf track :: requests w).
Proof.
  intros track off len w key w'. subst w'.
  rewrite detectDrop_run. fold key.
  assert (Hput : forall r,
            let w2 := storePut {| value := r; cacheKey := key |}
                        (afterRequest (endpointOf track) w) in
            (forall k, k <> key -> store w2 !! k = store w !! k) /\
            (forall k, is_Some (store w !! k) -> is_Some (store w2 !! k)) /\
            (requests w2 = requests w \/
             requests w2 = endpointOf track :: requests w)).
  { intros r w2. subst w2. cbn [storePut afterRequest store requests cacheKey].
    split; [|split].
    - intros k Hk. now rewrite lookup_insert_ne by congruence.
    - intros k Hk. destruct (decide (key = k)) as [->|Hne].
      + rewrite lookup_insert_eq. eauto.
      + now rewrite lookup_insert_ne.
    - now right. }
  assert (Hplain :
            (forall k, k <> key ->
               store (afterRequest (endpointOf track) w) !! k
               = store w !! k) /\
            (forall k, is_Some (store w !! k) ->
               is_Some (store (afterRequest (endpointOf track) w) !! k)) /\
            (requests (afterRequest (endpointOf track) w) = requests w \/
             requests (afterRequest (endpointOf track) w)
             = endpointOf track :: requests w)).
  { cbn [afterRequest store requests]. auto. }
  destruct (usable _ (clock w)) as [hit|]; cbn [snd]; [auto|].
  destruct (spotify w (endpointOf track)) as [analysis|e];
    [|rewrite fallbackDrop_run; exact Hplain].
  destruct (analyzeForDrop track analysis off len _) as [[r|e] w2];
    [|rewrite fallbackDrop_run; exact Hplain].
  cbn [snd]. destruct (idbOpens w); [apply Hput|exact Hplain].
Qed.

(** X6.  Cache idempotence.  After a run that was not served from the
    cache and returned anything but the error fallback, with a store that
    can be opened, a call with the same track and parameters in any later
    world with that store, made less than 7 days after the result was
    stamped, returns the same result and leaves that world untouched: the
    provider is not asked again. *)
Theorem detectDrop_second_call_hits_cache :
  forall (track : SpotifyTrack) (off len : Q) (w w1 w2 : World)
         (cached : option DropAnalysis) (r : DropAnalysis),
    getCachedAnalysis numberToString (id track) off len w = (Ok cached, w) ->
    usable cached (clock w) = None ->
    idbOpens w = true ->
    detectDrop numberToString track off len w = (Ok r, w1) ->
    method r <> "error" ->
    store w2 = store w1 ->
    idbOpens w2 = true ->
    (clock w2 - analysisTimestamp r < 7 * 24 * 60 * 60 * 1000)%Z ->
    detectDrop numberToString track off len w2 = (Ok r, w2).
Proof.
  intros track off len w w1 w2 cached r Hget Huse Hopen Hrun Hm
         Hstore Hopen2 Hage.
  rewrite (detectDrop_miss numberToString track off len w cached Hget Huse)
    in Hrun.
  rewrite Hopen in Hrun.
  assert (Hw1 : store w1 !! getCacheKey numberToString (id track) off len
                = Some {| value := r;
                          cacheKey :=
                            getCacheKey numberToString (id track) off len |}).
  { destruct (spotify w (endpointOf track)) as [analysis|e].
    - destruct (analyzeForDrop track analysis off len _) as [[r0|e] w0].
      + injection Hrun as <- <-. cbn [storePut store cacheKey].
        apply lookup_insert_eq.
      + rewrite fallbackDrop_run in Hrun. injection Hrun as <- _.
        now contradiction Hm.
    - rewrite fallbackDrop_run in Hrun. injection Hrun as <- _.
      now contradiction Hm. }
  apply (detectDrop_hit numberToString track off len w2 (Some r) r).
  - rewrite getCachedAnalysis_run, Hopen2. unfold storeGet.
    now rewrite Hstore, Hw1.
  - cbn [usable].
    destruct (Z.ltb_spec (clock w2 - analysisTimestamp r) retentionMs)
      as [_|Hge]; [reflexivity|].
    unfold retentionMs in Hge. lia.
Qed.

(** X7.  An error fallback is not remembered: after a run that was not
    served from the cache and returned the error fallback, a call with
    the same track and parameters in any later world with the same store
    asks the provider again. *)
Theorem detectDrop_retries_after_error :
  forall (track : SpotifyTrack) (off len : Q) (w w1 w2 : World)
         (cached : option DropAnalysis) (r : DropAnalysis),
    getCachedAnalysis numberToString (id track) off len w = (Ok cached, w) ->
    usable cached (clock w) = None ->
    detectDrop numberToString track off len w = (Ok r, w1) ->
    method r = "error" ->
    store w2 = store w1 ->
    idbOpens w2 = idbOpens w ->
    (clock w <= clock w2)%Z ->
    requests (snd (detectDrop numberToString track off len w2)) =
    endpointOf track :: requests w2.
Proof.
  intros track off len w w1 w2 cached r Hget Huse Hrun Hm
         Hstore Hopen2 Hclock.
  assert (Hsame : store w1 = store w).
  { rewrite (detectDrop_miss numberToString track off len w cached Hget Huse)
      in Hrun.
    destruct (spotify w (endpointOf track)) as [analysis|e].
    - destruct (analyzeForDrop track analysis off len _) as [[r0|e] w0] eqn:Ha.
      + injection Hrun as <- _. now apply analyzeForDrop_method in Ha.
      + rewrite fallbackDrop_run in Hrun. now injection Hrun as _ <-.
    - rewrite fallbackDrop_run in Hrun. now injection Hrun as _ <-. }
  rewrite getCachedAnalysis_run in Hget. injection Hget as Hcached.
  assert (Huse2 : usable (if idbOpens w2
                          then storeGet
                                 (getCacheKey numberToString (id track)
                                    off len) w2
                          else None) (clock w2) = None).
  { rewrite Hopen2. unfold storeGet in *. rewrite Hstore, Hsame.
    rewrite Hcached. destruct cached as [c|]; [|reflexivity].
    cbn [usable] in Huse |- *.
    destruct (Z.ltb_spec (clock w - analysisTimestamp c) retentionMs);
      [discriminate|].
    destruct (Z.ltb_spec (clock w2 - analysisTimestamp c) retentionMs);
      [lia|reflexivity]. }
  rewrite detectDrop_run. cbv zeta. rewrite Huse2.
  destruct (spotify w2 (endpointOf track)) as [analysis|e];
    [|rewrite fallbackDrop_run; reflexivity].
  destruct (analyzeForDrop track analysis off len _) as [[r0|e] w0];
    [|rewrite fallbackDrop_run; reflexivity].
  cbn [snd]. destruct (idbOpens w2); reflexivity.
Qed.

End CacheFacts.

(** ** The analysis at its edges *)

Lemma scan_none_without_qualifying {A : Type} (qualifies : A -> bool)
    (candidate : A -> A -> Cand.t) (items : list A) :
  (forall x, x ∈ items -> qualifies x = false) ->
  scan qualifies candidate items = None.
Proof.
  intros Hnone.
  pose proof (scan_firstBest qualifies candidate items) as H.
  destruct (scan qualifies candidate items) as [c|]; [|reflexivity].
  destruct H as (i & (prev & cur & _ & Hcur & Hq & _) & _).
  rewrite Hnone in Hq; [discriminate|].
  apply list_elem_of_lookup. eauto.
Qed.

(** X8.  When no section and no segment starts in the search window, in
    particular when both arrays are empty, [analyzeForDrop] returns the
    fallback at 30 % of the duration with confidence 0.2, whatever the
    bars are and even when the response has no bars at all. *)
Theorem analyzeForDrop_nothing_in_window :
  forall (track : SpotifyTrack) (analysis : AudioAnalysis) (off len : Q)
         (w : World) (secs : list Sec.t) (segs : list Seg.t),
    let s := (searchStartMs (duration_ms track) / 1000)%Q in
    let e := (searchEndMs (duration_ms track) / 1000)%Q in
    sections analysis = Some secs ->
    segments analysis = Some segs ->
    (forall sec, sec ∈ secs -> ~ (s <= Sec.start sec <= e)%Q) ->
    (forall seg, seg ∈ segs -> ~ (s <= Seg.start seg <= e)%Q) ->
    analyzeForDrop track analysis off len w =
    (Ok {| trackId := id track;
           dropStart := Qfloor (duration_ms track * 0.3);
           confidence := 0.2%R;
           method := "30‑percent";
           previewLength := len;
           analysisTimestamp := clock w |}, w).
Proof.
  intros track analysis off len w secs segs s e Hsecs Hsegs Hnosec Hnoseg.
  rewrite (analyzeForDrop_run _ _ _ _ _ _ _ Hsecs Hsegs).
  rewrite findDropInSections_scan, findDropInSegments_scan. fold s e.
  rewrite scan_none_without_qualifying.
  2:{ intros sec Hsec. destruct (sectionQualifies _ _ _ sec) eqn:Hq;
        [|reflexivity].
      apply sectionQualifies_true in Hq. now destruct (Hnosec sec Hsec). }
  rewrite scan_none_without_qualifying.
  2:{ intros seg Hseg. destruct (segmentQualifies _ _ _ seg) eqn:Hq;
        [|reflexivity].
      apply segmentQualifies_true in Hq. now destruct (Hnoseg seg Hseg). }
  pose proof (loudestSegmentInRange_cases segs
                (searchStartMs (duration_ms track))
                (searchEndMs (duration_ms track))) as Hl.
  destruct (loudestSegmentInRange _ _ _) as [c|].
  - destruct Hl as (seg & Hseg & Hin & _). now destruct (Hnoseg seg Hseg).
  - apply fallbackDrop_run.
Qed.

Lemma snapToDownbeat_unconfident (t : Q) (bs : list Bar.t) :
  (forall b, b ∈ bs -> (Bar.confidence b < 0.5)%Q) ->
  snapToDownbeat t bs = t.
Proof.
  intros Hlow.
  destruct (snapToDownbeat_cases t bs) as [H | (b & Hb & Hc & _)];
    [exact H|].
  exfalso. revert Hc. apply Qlt_not_le. now apply Hlow.
Qed.

(** X9.  Without a bar of confidence at least 0.5 nothing is snapped: the
    [dropStart] of every result but the 30 % fallback is the floor of the
    chosen start in milliseconds, and lies in the search window (above its
    start less 1 ms, at most its end). *)
Theorem analyzeForDrop_unsnapped_in_window :
  forall (track : SpotifyTrack) (analysis : AudioAnalysis) (off len : Q)
         (w w' : World) (bs : list Bar.t) (r : DropAnalysis),
    bars analysis = Some bs ->
    (forall b, b ∈ bs -> (Bar.confidence b < 0.5)%Q) ->
    analyzeForDrop track analysis off len w = (Ok r, w') ->
    method r <> "30‑percent" ->
    (searchStartMs (duration_ms track) - 1 < inject_Z (dropStart r))%Q /\
    (inject_Z (dropStart r) <= searchEndMs (duration_ms track))%Q.
Proof.
  intros track analysis off len w w' bs r Hbars Hlow Hrun Hm.
  set (sMs := searchStartMs (duration_ms track)) in *.
  set (eMs := searchEndMs (duration_ms track)) in *.
  assert (Hbuilt : forall c m ov,
            (sMs / 1000 <= Cand.start c <= eMs / 1000)%Q ->
            buildResult track analysis c m len ov w = (Ok r, w') ->
            (sMs - 1 < inject_Z (dropStart r))%Q /\
            (inject_Z (dropStart r) <= eMs)%Q).
  { intros c m ov [Hs He] Hb. rewrite buildResult_run, Hbars in Hb.
    injection Hb as Hr _.
    assert (Hd : dropStart r
                 = Qfloor (snapToDownbeat (Cand.start c) bs * 1000))
      by (now rewrite <- Hr).
    rewrite Hd, (snapToDownbeat_unconfident _ _ Hlow).
    pose proof (Qfloor_le (Cand.start c * 1000)) as Hfl.
    pose proof (Qlt_floor (Cand.start c * 1000)) as Hfu.
    rewrite inject_Z_plus in Hfu.
    set (f := inject_Z (Qfloor (Cand.start c * 1000))) in *.
    change (inject_Z 1) with 1%Q in Hfu.
    revert Hs He. unfold Qdiv. cbn [Qinv Qnum Qden]. intros Hs He.
    split; Lqa.lra. }
  destruct (segments analysis) as [segs|] eqn:Hsegs;
    [|unfold analyzeForDrop, bind, property in Hrun;
      rewrite Hsegs in Hrun; discriminate].
  destruct (sections analysis) as [secs|] eqn:Hsecs;
    [|unfold analyzeForDrop, bind, property in Hrun;
      rewrite Hsegs, Hsecs in Hrun; discriminate].
  rewrite (analyzeForDrop_run _ _ _ _ _ _ _ Hsecs Hsegs) in Hrun.
  fold sMs eMs in Hrun.
  destruct (findDropInSections _ _ _ _) as [c|] eqn:E1.
  { apply findDropInSections_in_window in E1. eauto. }
  destruct (findDropInSegments _ _ _ _) as [c|] eqn:E2.
  { apply findDropInSegments_in_window in E2. eauto. }
  pose proof (loudestSegmentInRange_cases segs sMs eMs) as Hl.
  destruct (loudestSegmentInRange _ _ _) as [c|].
  - destruct Hl as (seg & _ & Hin & Hst & _). rewrite <- Hst in Hin. eauto.
  - rewrite fallbackDrop_run in Hrun. injection Hrun as <- _.
    now contradiction Hm.
Qed.

(** X10.  Snapping twice is snapping once: the snapped timestamp is again
    the nearest start of a bar of confidence at least 0.5. *)
Theorem snapToDownbeat_idempotent :
  forall (targetSec : Q) (bars : list Bar.t),
    (snapToDownbeat (snapToDownbeat targetSec bars) bars
     == snapToDownbeat targetSec bars)%Q.
Proof.
  intros t bars.
  pose proof (snapLoop_fresh t bars) as H1.
  fold (snapToDownbeat t bars) in H1. cbv zeta in H1.
  set (r := snapToDownbeat t bars) in *.
  pose proof (snapLoop_fresh r bars) as H2.
  fold (snapToDownbeat r bars) in H2. cbv zeta in H2.
  destruct H1 as [(Hnone & Hr) | (b & Hb & Hcb & Hr & _)].
  - destruct H2 as [(_ & H2) | (b' & Hb' & Hcb' & _)].
    + now rewrite H2.
    + now destruct (Hnone b' Hb').
  - destruct H2 as [(Hnone & _) | (b' & Hb' & Hcb' & H2 & Hmin)].
    + now destruct (Hnone b Hb).
    + specialize (Hmin b Hb Hcb). rewrite H2. rewrite Hr in Hmin |- *.
      assert (H0 : (Qabs (Bar.start b - Bar.start b) <= 0)%Q)
        by (apply Qabs_Qle_condition; split; Lqa.lra).
      assert (Hz : (Qabs (Bar.start b' - Bar.start b) <= 0)%Q)
        by (eapply Qle_trans; eassumption).
      apply Qabs_Qle_condition in Hz. destruct Hz.
      apply Qle_antisym; Lqa.lra.
Qed.

(** ** The threshold *)

Lemma scan_more_qualifying {A : Type} (q1 q2 : A -> bool)
    (candidate : A -> A -> Cand.t) (items : list A) (c2 : Cand.t) :
  (forall x, q2 x = true -> q1 x = true) ->
  scan q2 candidate items = Some c2 ->
  exists c1, scan q1 candidate items = Some c1 /\
    (Cand.score c2 <= Cand.score c1)%Q.
Proof.
  intros Hq H2.
  pose proof (scan_firstBest q2 candidate items) as Hb2.
  pose proof (scan_firstBest q1 candidate items) as Hb1.
  rewrite H2 in Hb2.
  destruct Hb2 as (i & (prev & cur & Hp & Hc & Hq2 & ->) & _).
  assert (Hhit : hitAt q1 candidate items i (candidate prev cur))
    by (exists prev, cur; auto).
  destruct (scan q1 candidate items) as [c1|].
  - exists c1. split; [reflexivity|].
    destruct Hb1 as (i1 & _ & Hall). now apply (Hall i).
  - now destruct (Hb1 i (candidate prev cur)).
Qed.

(** X11.  Lowering the loudness threshold never loses a hit and never
    lowers the best score: when a scanner has a hit at a threshold, it has
    one at every lower threshold, of a score at least as high. *)
Theorem scanners_monotone_in_threshold :
  forall (secs : list Sec.t) (segs : list Seg.t)
         (startMs endMs low high : Q),
    (low <= high)%Q ->
    (forall c,
       findDropInSections secs startMs endMs high = Some c ->
       exists c', findDropInSections secs startMs endMs low = Some c' /\
         (Cand.score c <= Cand.score c')%Q) /\
    (forall c,
       findDropInSegments segs startMs endMs high = Some c ->
       exists c', findDropInSegments segs startMs endMs low = Some c' /\
         (Cand.score c <= Cand.score c')%Q).
Proof.
  intros secs segs startMs endMs low high Hle. split; intros c Hc.
  - rewrite findDropInSections_scan in *.
    eapply scan_more_qualifying; [|exact Hc].
    intros x Hx. apply sectionQualifies_true in Hx as [Hin Hl].
    apply sectionQualifies_true. split; [exact Hin|].
    eapply Qle_trans; eassumption.
  - rewrite findDropInSegments_scan in *.
    eapply scan_more_qualifying; [|exact Hc].
    intros x Hx. apply segmentQualifies_true in Hx as [Hin Hl].
    apply segmentQualifies_true. split; [exact Hin|].
    eapply Qle_trans; eassumption.
Qed.

(** ** The cache key *)

Lemma append_bar_inj (a a' r r' : string) :
  hasBar a = false -> hasBar a' = false ->
  a +:+ "|" +:+ r = a' +:+ "|" +:+ r' ->
  a = a' /\ r = r'.
Proof.
  revert a'. induction a as [|c a IH]; intros [|c' a'] Ha Ha' H.
  - cbn in H. injection H as H. auto.
  - cbn in H. injection H as Hc _. subst c'. cbn in Ha'. discriminate.
  - cbn in H. injection H as Hc _. subst c. cbn in Ha. discriminate.
  - cbn [String.append] in H. injection H as -> H.
    cbn [hasBar] in Ha, Ha'.
    destruct (Ascii.eqb c' "|"%char); [discriminate|].
    destruct (IH a' Ha Ha' H) as [-> ->]. auto.
Qed.

(** X12.  Cache keys do not collide: for track ids and printed offsets
    that contain no "|", two keys are equal only if the track ids are
    equal and the loudness offsets and the preview lengths print alike. *)
Theorem getCacheKey_separates :
  forall (numberToString : Q -> string) (trackId trackId' : string)
         (off off' len len' : Q),
    hasBar trackId = false -> hasBar trackId' = false ->
    hasBar (numberToString off) = false ->
    hasBar (numberToString off') = false ->
    getCacheKey numberToString trackId off len =
    getCacheKey numberToString trackId' off' len' ->
    trackId = trackId' /\
    numberToString off = numberToString off' /\
    numberToString len = numberToString len'.
Proof.
  intros toStr i i' off off' len len' Hi Hi' Ho Ho' H.
  unfold getCacheKey in H.
  apply append_bar_inj in H as [-> H]; [|assumption..].
  apply append_bar_inj in H as [-> ->]; auto.
Qed.

(** * Properties of the provider's client *)

Module SpotifyFacts.

Import Spotify SpotifyVocabulary.

Section ClientFacts.

Context `{Runtime}.

Lemma truthy_Some (v : option string) (s : string) :
  truthy v = Some s -> v = Some s /\ s <> "".
Proof.
  destruct v as [[|c s']|]; cbn; intros [= <-]; split; congruence.
Qed.

Lemma logout_run (st : St) :
  logout st =
  (Return tt,
   {| localStorage :=
        delete "spotify_token_expires"
          (delete "spotify_refresh_token"
             (delete "spotify_access_token" (localStorage st)));
      sessionStorage := delete "spotify_code_verifier" (sessionStorage st);
      now := now st; network := network st; sent := sent st |}).
Proof. reflexivity. Qed.

Lemma logout_tokens (st : St) (k : string) :
  localStorage (snd (logout st)) !! k =
  if bool_decide (k ∈ tokenKeys) then None else localStorage st !! k.
Proof.
  rewrite logout_run. cbn [snd localStorage]. unfold tokenKeys.
  case_bool_decide as Hk.
  - rewrite !elem_of_cons in Hk.
    destruct Hk as [-> | [-> | [-> | Hk]]]; [| | |inversion Hk].
    + rewrite lookup_delete_ne, lookup_delete_ne by discriminate.
      apply lookup_delete_eq.
    + rewrite lookup_delete_ne by discriminate. apply lookup_delete_eq.
    + apply lookup_delete_eq.
  - rewrite !elem_of_cons in Hk.
    rewrite !lookup_delete_ne; [reflexivity|..]; intros <-; tauto.
Qed.

(** X13.  After [logout] the client holds no token: [isAuthenticated] is
    false, every [spotifyApiCall] fails with 'No access token available'
    without sending a request, and the entries of [localStorage] other
    than the three token entries are as they were. *)
Theorem spotifyApiCall_after_logout :
  forall (st : St) (endpoint : string),
    let st' := snd (logout st) in
    isAuthenticated st' = false /\
    spotifyApiCall endpoint st' = (Raise NoAccessToken, st') /\
    (forall k, k ∉ tokenKeys -> localStorage st' !! k = localStorage st !! k).
Proof.
  intros st endpoint st'.
  assert (Hacc : localStorage st' !! "spotify_access_token" = None)
    by (subst st'; now rewrite logout_tokens).
  split; [|split].
  - unfold isAuthenticated. now rewrite Hacc.
  - cbv [spotifyApiCall tryCatch getValidAccessToken bind getItem].
    rewrite Hacc. reflexivity.
  - intros k Hk. subst st'. rewrite logout_tokens.
    now rewrite bool_decide_eq_false_2.
Qed.

Lemma bind_Return {A B} (m : M A) (k : A -> M B) (st st' : St) (b : B) :
  bind m k st = (Return b, st') ->
  exists a s1, m st = (Return a, s1) /\ k a s1 = (Return b, st').
Proof.
  unfold bind. destruct (m st) as [[a|e] s1]; [eauto|discriminate].
Qed.

Lemma fetch_inv (request : Request) (st st' : St) (out : res Response) :
  fetch request st = (out, st') ->
  sent st' = request :: sent st /\
  localStorage st' = localStorage st /\
  suffix (network st') (network st) /\
  forall r, out = Return r ->
    exists ex, ex ∈ network st /\ reply ex = Some r.
Proof.
  unfold fetch. destruct (network st) as [|ex rest] eqn:Hn.
  - intros [= <- <-]. cbn.
    split; [reflexivity|]. split; [reflexivity|]. split; [done|].
    intros r [=].
  - destruct (reply ex) as [r|] eqn:Hr; intros [= <- <-]; cbn;
      (split; [reflexivity|]); (split; [reflexivity|]);
      (split; [now apply suffix_cons_r|]).
    + intros r' [= <-]. exists ex.
      split; [apply list_elem_of_here|exact Hr].
    + intros r' [=].
Qed.

(** A refresh sends at most the one token request, and reads the script
    in order. *)
Lemma refreshAccessToken_inv (st : St) :
  let st' := snd (refreshAccessToken st) in
  suffix (network st') (network st) /\
  (sent st' = sent st \/
   exists request,
     sent st' = request :: sent st /\ bearing request = false /\
     url request = SPOTIFY_TOKEN_URL).
Proof.
  cbv zeta. unfold refreshAccessToken.
  cbv [bind getItem].
  destruct (truthy (localStorage st !! "spotify_refresh_token")) as [rt|];
    [|cbn; auto].
  match goal with
  | |- context [fetch ?req st] =>
      pose proof (fetch_inv req st) as Hf;
      destruct (fetch req st) as [[r|e] s1]
  end.
  2:{ destruct (Hf s1 (Raise e) eq_refl) as (Hs & _ & Hn & _). cbn [snd].
      split; [exact Hn|]. right. eexists. split; [exact Hs|]. auto. }
  destruct (Hf s1 (Return r) eq_refl) as (Hs & _ & Hn & _). clear Hf.
  assert (Hright : forall s2 : St,
            network s2 = network s1 -> sent s2 = sent s1 ->
            suffix (network s2) (network st) /\
            (sent s2 = sent st \/
             exists request,
               sent s2 = request :: sent st /\ bearing request = false /\
               url request = SPOTIFY_TOKEN_URL)).
  { intros s2 Hn2 Hs2. rewrite Hn2, Hs2. split; [exact Hn|].
    right. eexists. split; [exact Hs|]. auto. }
  destruct (negb (ok r)); [now apply Hright|].
  unfold readJson. destruct (json r) as [j|]; [|now apply Hright].
  cbv [ret setItem dateNow]. cbn [snd].
  destruct (truthy (refresh_token j)); now apply Hright.
Qed.

Lemma getValidAccessToken_inv (st : St) :
  let st' := snd (getValidAccessToken st) in
  suffix (network st') (network st) /\
  (sent st' = sent st \/
   exists request,
     sent st' = request :: sent st /\ bearing request = false /\
     url request = SPOTIFY_TOKEN_URL).
Proof.
  cbv zeta. unfold getValidAccessToken. cbv [bind getItem dateNow].
  destruct (truthy (localStorage st !! "spotify_access_token")) as [a|];
    [|cbn; auto].
  destruct (truthy (localStorage st !! "spotify_token_expires")) as [x|];
    [|cbn; auto].
  destruct (reached (now st) x); [|cbn; auto].
  apply refreshAccessToken_inv.
Qed.

Lemma adds_same (endpoint : string) (st st' : St) :
  sent st' = sent st -> adds endpoint 0 0 st st'.
Proof.
  intros Hs. exists []. rewrite Hs.
  split; [reflexivity|]. split; [cbn; lia|]. split; [cbn; lia|constructor].
Qed.

Lemma adds_token (endpoint : string) (st st' : St) :
  (sent st' = sent st \/
   exists request,
     sent st' = request :: sent st /\ bearing request = false /\
     url request = SPOTIFY_TOKEN_URL) ->
  adds endpoint 0 1 st st'.
Proof.
  intros [Hs | (req & Hs & Hb & Hu)].
  - exists []. rewrite Hs.
    split; [reflexivity|]. split; [cbn; lia|]. split; [cbn; lia|constructor].
  - exists [req]. rewrite Hs. unfold withToken, withoutToken.
    cbn [List.filter]. rewrite Hb. cbn.
    split; [reflexivity|]. split; [lia|]. split; [lia|].
    constructor; [now rewrite Hb|constructor].
Qed.

Lemma adds_api (endpoint : string) (token : option string) (st st' : St) :
  sent st' = apiRequest endpoint token :: sent st ->
  adds endpoint 1 0 st st'.
Proof.
  intros Hs. exists [apiRequest endpoint token]. rewrite Hs.
  split; [reflexivity|]. split; [cbn; lia|]. split; [cbn; lia|].
  constructor; [reflexivity|constructor].
Qed.

Lemma adds_trans (endpoint : string) (a a' t t' : nat) (s1 s2 s3 : St) :
  adds endpoint a t s1 s2 -> adds endpoint a' t' s2 s3 ->
  adds endpoint (a + a') (t + t') s1 s3.
Proof.
  intros (n1 & H1 & Ha1 & Ht1 & Hu1) (n2 & H2 & Ha2 & Ht2 & Hu2).
  exists (n2 ++ n1). rewrite H2, H1, app_assoc.
  unfold withToken, withoutToken in *.
  rewrite !List.filter_app, !length_app.
  split; [reflexivity|]. split; [lia|]. split; [lia|].
  now apply Forall_app.
Qed.

Lemma adds_weaken (endpoint : string) (a a' t t' : nat) (st st' : St) :
  adds endpoint a t st st' -> (a <= a')%nat -> (t <= t')%nat ->
  adds endpoint a' t' st st'.
Proof.
  intros (n & Hs & Ha & Ht & Hu) Haa Htt. exists n.
  split; [assumption|]. split; [lia|]. split; [lia|assumption].
Qed.

(** X14.  One call sends at most two requests with a bearer token, both
    to the endpoint asked for, and at most two token requests: a request
    is retried once at most, after one refresh at most. *)
Theorem spotifyApiCall_sends_at_most_two :
  forall (endpoint : string) (st : St),
    exists new,
      sent (snd (spotifyApiCall endpoint st)) = new ++ sent st /\
      (withToken new <= 2)%nat /\ (withoutToken new <= 2)%nat /\
      Forall (fun r =>
                url r = if bearing r then SPOTIFY_API_BASE +:+ endpoint
                        else SPOTIFY_TOKEN_URL) new.
Proof.
  intros endpoint st.
  change (adds endpoint 2 2 st (snd (spotifyApiCall endpoint st))).
  unfold spotifyApiCall, tryCatch. unfold bind at 1.
  pose proof (getValidAccessToken_inv st) as [_ H1]. apply (adds_token endpoint) in H1.
  destruct (getValidAccessToken st) as [[tok|e] s1]; cbn [snd] in H1;
    [|cbn; eapply adds_weaken; [exact H1|lia..]].
  unfold bind at 1.
  pose proof (fetch_inv (apiRequest endpoint tok) s1) as Hf.
  destruct (fetch (apiRequest endpoint tok) s1) as [[r|e] s2].
  2:{ destruct (Hf s2 (Raise e) eq_refl) as (Hs & _).
      apply adds_api in Hs. cbn.
      eapply adds_weaken; [exact (adds_trans _ _ _ _ _ _ _ _ H1 Hs)|lia..]. }
  destruct (Hf s2 (Return r) eq_refl) as (Hs & _). clear Hf.
  apply adds_api in Hs.
  pose proof (adds_trans _ _ _ _ _ _ _ _ H1 Hs) as H2. cbn in H2.
  assert (Hdone : forall (out : res Json),
            adds endpoint 2 2 st
              (snd match (out, s2) with
                   | (Return a, st') => (Return a, st')
                   | (Raise e, st') => raise e st'
                   end)).
  { intros [j|e]; cbn; (eapply adds_weaken; [exact H2|lia|lia]). }
  destruct (negb (ok r)).
  2:{ unfold readJson. destruct (json r) as [j|];
        [apply (Hdone (Return j))|apply (Hdone (Raise JsonRejected))]. }
  destruct (status r =? 401)%Z;
    [|apply (Hdone (Raise (ApiError (status r) (errorText r))))].
  unfold tryCatch. unfold bind at 1.
  pose proof (refreshAccessToken_inv s2) as [_ H3].
  apply (adds_token endpoint) in H3.
  destruct (refreshAccessToken s2) as [[tok'|e] s3]; cbn [snd] in H3.
  2:{ cbn. eapply adds_weaken;
        [exact (adds_trans _ _ _ _ _ _ _ _ H2 H3)|lia..]. }
  pose proof (adds_trans _ _ _ _ _ _ _ _ H2 H3) as H4. cbn in H4.
  unfold bind at 1.
  pose proof (fetch_inv (apiRequest endpoint tok') s3) as Hf.
  destruct (fetch (apiRequest endpoint tok') s3) as [[r'|e] s4].
  2:{ destruct (Hf s4 (Raise e) eq_refl) as (Hs' & _).
      apply adds_api in Hs'. cbn.
      eapply adds_weaken; [exact (adds_trans _ _ _ _ _ _ _ _ H4 Hs')|lia..]. }
  destruct (Hf s4 (Return r') eq_refl) as (Hs' & _). clear Hf.
  apply adds_api in Hs'.
  pose proof (adds_trans _ _ _ _ _ _ _ _ H4 Hs') as H5. cbn in H5.
  destruct (negb (ok r')); [cbn; exact H5|].
  unfold readJson. destruct (json r'); cbn; exact H5.
Qed.

Lemma isAuthenticated_inv (st : St) :
  isAuthenticated st = true ->
  exists token expires e,
    localStorage st !! "spotify_access_token" = Some token /\ token <> "" /\
    localStorage st !! "spotify_token_expires" = Some expires /\
    expires <> "" /\
    parseInt expires = Some e /\ (now st < e)%Z.
Proof.
  unfold isAuthenticated, before.
  destruct (truthy (localStorage st !! "spotify_access_token"))
    as [token|] eqn:Ht; [|discriminate].
  destruct (truthy (localStorage st !! "spotify_token_expires"))
    as [expires|] eqn:He; [|discriminate].
  destruct (parseInt expires) as [e|] eqn:Hp; [|discriminate].
  intros Hlt. apply Z.ltb_lt in Hlt.
  apply truthy_Some in Ht as [Ht Ht']. apply truthy_Some in He as [He He'].
  exists token, expires, e. auto 10.
Qed.

Lemma truthy_nonempty (s : string) : s <> "" -> truthy (Some s) = Some s.
Proof. destruct s; [congruence|reflexivity]. Qed.

(** With a stored token whose expiry lies ahead nothing is refreshed. *)
Lemma getValidAccessToken_fresh (st : St) (token expires : string) (e : Z) :
  localStorage st !! "spotify_access_token" = Some token -> token <> "" ->
  localStorage st !! "spotify_token_expires" = Some expires ->
  expires <> "" ->
  parseInt expires = Some e -> (now st < e)%Z ->
  getValidAccessToken st = (Return (Some token), st).
Proof.
  intros Ht Ht' He He' Hp Hlt.
  cbv [getValidAccessToken bind getItem dateNow]. rewrite Ht, He.
  rewrite (truthy_nonempty _ Ht'), (truthy_nonempty _ He').
  unfold reached. rewrite Hp.
  destruct (Z.leb_spec e (now st)); [lia|reflexivity].
Qed.

(** X15.  While [isAuthenticated] holds, [getValidAccessToken] returns
    the stored access token as it is, without any request and without
    touching the state. *)
Theorem getValidAccessToken_when_authenticated :
  forall st : St,
    isAuthenticated st = true ->
    exists token,
      localStorage st !! "spotify_access_token" = Some token /\
      getValidAccessToken st = (Return (Some token), st).
Proof.
  intros st Hauth.
  destruct (isAuthenticated_inv st Hauth)
    as (token & expires & e & Ht & Ht' & He & He' & Hp & Hlt).
  exists token. split; [exact Ht|].
  exact (getValidAccessToken_fresh st token expires e Ht Ht' He He' Hp Hlt).
Qed.

(** X16.  A call that returns a document returns the JSON body of a
    response of the script whose status is in the range 200-299: the body
    of an error response is never handed to the caller. *)
Theorem spotifyApiCall_returns_ok_body :
  forall (endpoint : string) (st st' : St) (document : Json),
    spotifyApiCall endpoint st = (Return document, st') ->
    exists ex r,
      ex ∈ network st /\ reply ex = Some r /\
      (200 <= status r <= 299)%Z /\ json r = Some document.
Proof.
  intros endpoint st st' j Hrun.
  assert (Hok : forall r : Response, negb (ok r) = false ->
            (200 <= status r <= 299)%Z).
  { intros r Hr. apply negb_false_iff in Hr. unfold ok in Hr.
    apply andb_true_iff in Hr as [H1 H2].
    apply Z.leb_le in H1. apply Z.leb_le in H2. lia. }
  assert (Hread : forall (r : Response) (s s' : St),
            readJson r s = (Return j, s') -> json r = Some j).
  { intros r s s'. unfold readJson.
    destruct (json r); [intros [= -> _]; reflexivity|discriminate]. }
  unfold spotifyApiCall, tryCatch in Hrun.
  match type of Hrun with
  | match ?body with _ => _ end = _ =>
      destruct body as [[j0|e] s0] eqn:Hbody; [|discriminate]
  end.
  injection Hrun as -> ->.
  apply bind_Return in Hbody as (tok & s1 & Hvalid & Hbody).
  pose proof (getValidAccessToken_inv st) as [Hn1 _].
  rewrite Hvalid in Hn1. cbn [snd] in Hn1.
  apply bind_Return in Hbody as (r & s2 & Hfetch & Hbody).
  destruct (fetch_inv _ _ _ _ Hfetch) as (_ & _ & Hn2 & Hex).
  destruct (Hex r eq_refl) as (ex & Hin & Hreply).
  destruct (negb (ok r)) eqn:Hnok.
  - destruct (status r =? 401)%Z; [|discriminate].
    unfold tryCatch in Hbody.
    match type of Hbody with
    | match ?body with _ => _ end = _ =>
        destruct body as [[j1|e] s3] eqn:Hretry; [|discriminate]
    end.
    injection Hbody as -> ->.
    apply bind_Return in Hretry as (tok' & s4 & Hrefresh & Hretry).
    pose proof (refreshAccessToken_inv s2) as [Hn3 _].
    rewrite Hrefresh in Hn3. cbn [snd] in Hn3.
    apply bind_Return in Hretry as (r' & s5 & Hfetch' & Hretry).
    destruct (fetch_inv _ _ _ _ Hfetch') as (_ & _ & _ & Hex').
    destruct (Hex' r' eq_refl) as (ex' & Hin' & Hreply').
    destruct (negb (ok r')) eqn:Hnok'; [discriminate|].
    exists ex', r'. split; [|split; [exact Hreply'|]].
    + eapply elem_of_suffix; [exact Hin'|].
      etransitivity; [exact Hn3|]. etransitivity; [exact Hn2|exact Hn1].
    + split; [now apply Hok|now apply Hread in Hretry].
  - exists ex, r. split; [|split; [exact Hreply|]].
    + eapply elem_of_suffix; [exact Hin|exact Hn1].
    + split; [now apply Hok|now apply Hread in Hbody].
Qed.

(** One call, step by step. *)
Lemma spotifyApiCall_run (endpoint : string) (st : St) :
  spotifyApiCall endpoint st =
  match getValidAccessToken st with
  | (Raise e, s1) => (Raise e, s1)
  | (Return token, s1) =>
      match fetch (apiRequest endpoint token) s1 with
      | (Raise e, s2) => (Raise e, s2)
      | (Return r, s2) =>
          if negb (ok r) then
            if (status r =? 401)%Z then
              match retryWithFreshToken endpoint s2 with
              | (Return document, s3) => (Return document, s3)
              | (Raise _, s3) => (Raise AuthenticationFailed, snd (logout s3))
              end
            else (Raise (ApiError (status r) (errorText r)), s2)
          else
            match json r with
            | Some document => (Return document, s2)
            | None => (Raise JsonRejected, s2)
            end
      end
  end.
Proof.
  unfold spotifyApiCall, tryCatch at 1. unfold bind at 1.
  destruct (getValidAccessToken st) as [[token|e] s1]; [|reflexivity].
  unfold bind at 1.
  destruct (fetch (apiRequest endpoint token) s1) as [[r|e] s2];
    [|reflexivity].
  destruct (negb (ok r)).
  - destruct (status r =? 401)%Z; [|reflexivity].
    unfold tryCatch. fold (retryWithFreshToken endpoint).
    destruct (retryWithFreshToken endpoint s2) as [[document|e] s3];
      reflexivity.
  - unfold readJson. destruct (json r); reflexivity.
Qed.

(** X17.  When the request is answered with status 401, the call either
    returns a document (the retry with a refreshed token succeeded) or
    fails with 'Authentication failed' and leaves the client logged out:
    the three token entries are gone and [isAuthenticated] is false. *)
Theorem spotifyApiCall_unauthorized :
  forall (endpoint : string) (st : St) (ex : Exchange)
         (rest : list Exchange) (r : Response),
    isAuthenticated st = true ->
    network st = ex :: rest ->
    reply ex = Some r ->
    status r = 401%Z ->
    let out := fst (spotifyApiCall endpoint st) in
    let st' := snd (spotifyApiCall endpoint st) in
    (exists document, out = Return document) \/
    (out = Raise AuthenticationFailed /\
     isAuthenticated st' = false /\
     forall k, k ∈ tokenKeys -> localStorage st' !! k = None).
Proof.
  intros endpoint st ex rest r Hauth Hnet Hreply Hstatus.
  destruct (isAuthenticated_inv st Hauth)
    as (token & expires & t & Ht & Ht' & He & He' & Hp & Hlt).
  pose proof (getValidAccessToken_fresh st token expires t
                Ht Ht' He He' Hp Hlt) as Hvalid.
  cbv zeta. rewrite spotifyApiCall_run, Hvalid.
  unfold fetch. rewrite Hnet, Hreply.
  assert (Hnok : negb (ok r) = true)
    by (unfold ok; rewrite Hstatus; reflexivity).
  rewrite Hnok, Hstatus. cbn [Z.eqb Pos.eqb].
  destruct (retryWithFreshToken endpoint _) as [[document|e] s3];
    cbn [fst snd].
  - left. exists document. reflexivity.
  - right. split; [reflexivity|].
    assert (Hgone : forall k, k ∈ tokenKeys ->
              localStorage (snd (logout s3)) !! k = None).
    { intros k Hk. rewrite logout_tokens.
      now rewrite bool_decide_eq_true_2. }
    split; [|exact Hgone].
    unfold isAuthenticated.
    rewrite (Hgone "spotify_access_token"); [reflexivity|].
    apply list_elem_of_here.
Qed.

(** X18.  When the request is answered with an error status other than
    401, the call fails with that status and the message of the response
    ('Unknown error' when it has none), after that one request: nothing is
    retried and the stored tokens are kept. *)
Theorem spotifyApiCall_error_status :
  forall (endpoint : string) (st : St) (ex : Exchange)
         (rest : list Exchange) (r : Response),
    isAuthenticated st = true ->
    network st = ex :: rest ->
    reply ex = Some r ->
    ~ (200 <= status r <= 299)%Z ->
    status r <> 401%Z ->
    exists token st',
      localStorage st !! "spotify_access_token" = Some token /\
      spotifyApiCall endpoint st =
        (Raise (ApiError (status r) (errorText r)), st') /\
      sent st' = apiRequest endpoint (Some token) :: sent st /\
      localStorage st' = localStorage st /\
      network st' = rest.
Proof.
  intros endpoint st ex rest r Hauth Hnet Hreply Hstatus H401.
  destruct (isAuthenticated_inv st Hauth)
    as (token & expires & t & Htoken & Ht' & He & He' & Hp & Hlt).
  pose proof (getValidAccessToken_fresh st token expires t
                Htoken Ht' He He' Hp Hlt) as Hvalid.
  exists token. eexists. split; [exact Htoken|].
  rewrite spotifyApiCall_run, Hvalid.
  unfold fetch. rewrite Hnet, Hreply.
  assert (Hnok : negb (ok r) = true).
  { unfold ok. apply negb_true_iff, andb_false_iff.
    destruct (Z.leb_spec 200 (status r)); [|now left].
    destruct (Z.leb_spec (status r) 299); [lia|now right]. }
  rewrite Hnok.
  destruct (Z.eqb_spec (status r) 401); [contradiction|].
  split; [reflexivity|]. repeat split.
Qed.

(** X19.  Storing a refreshed token and reading it back: when the token
    endpoint answers a refresh with an access token and a positive
    lifetime, and [parseInt] reads the stored expiry back, the refresh
    returns that token, [isAuthenticated] holds right after, and
    [getValidAccessToken] then returns the new token without a request;
    the refresh token is replaced only if the answer carries one. *)
Theorem refreshAccessToken_then_valid :
  forall (st : St) (refreshToken : string) (ex : Exchange)
         (rest : list Exchange) (r : Response) (tokenData : Json)
         (token : string) (seconds : Z),
    localStorage st !! "spotify_refresh_token" = Some refreshToken ->
    refreshToken <> "" ->
    network st = ex :: rest ->
    reply ex = Some r ->
    (200 <= status r <= 299)%Z ->
    json r = Some tokenData ->
    access_token tokenData = Some token -> token <> "" ->
    expires_in tokenData = Some seconds -> (0 < seconds)%Z ->
    let expiry := (now st + took ex + seconds * 1000)%Z in
    numberToString expiry <> "" ->
    parseInt (numberToString expiry) = Some expiry ->
    exists st',
      refreshAccessToken st = (Return (Some token), st') /\
      isAuthenticated st' = true /\
      getValidAccessToken st' = (Return (Some token), st') /\
      localStorage st' !! "spotify_refresh_token" =
        Some (default refreshToken (truthy (refresh_token tokenData))).
Proof.
  intros st rt ex rest r j token seconds Hrt Hrt' Hnet Hreply Hstatus Hjson
         Htok Htok' Hexp Hpos expiry Hstr Hparse.
  assert (Hok : negb (ok r) = false).
  { unfold ok. apply negb_false_iff, andb_true_iff.
    split; apply Z.leb_le; lia. }
  assert (Hrun : exists st',
            refreshAccessToken st = (Return (Some token), st') /\
            localStorage st' !! "spotify_access_token" = Some token /\
            localStorage st' !! "spotify_token_expires"
              = Some (numberToString expiry) /\
            localStorage st' !! "spotify_refresh_token"
              = Some (default rt (truthy (refresh_token j))) /\
            now st' = (now st + took ex)%Z).
  { cbv [refreshAccessToken bind getItem]. rewrite Hrt.
    rewrite (truthy_nonempty _ Hrt'). unfold fetch. rewrite Hnet, Hreply.
    rewrite Hok. unfold readJson. rewrite Hjson.
    cbv [ret setItem dateNow]. cbn [localStorage now].
    rewrite Htok, Hexp. cbn [jsString default expiryString]. fold expiry.
    destruct (truthy (refresh_token j)) as [rt'|]; cbv [ret setItem];
      eexists; (split; [reflexivity|]); cbn [localStorage now default];
      repeat split.
    - rewrite lookup_insert_ne, lookup_insert_ne by discriminate.
      apply lookup_insert_eq.
    - rewrite lookup_insert_ne by discriminate. apply lookup_insert_eq.
    - apply lookup_insert_eq.
    - rewrite lookup_insert_ne by discriminate. apply lookup_insert_eq.
    - apply lookup_insert_eq.
    - rewrite lookup_insert_ne, lookup_insert_ne by discriminate.
      exact Hrt. }
  destruct Hrun as (st' & Hrun & Ha & He & Hr & Hnow).
  exists st'. split; [exact Hrun|].
  assert (Hauth : isAuthenticated st' = true).
  { unfold isAuthenticated, before. rewrite Ha, He.
    rewrite (truthy_nonempty _ Htok'), (truthy_nonempty _ Hstr).
    rewrite Hparse. apply Z.ltb_lt. subst expiry. lia. }
  split; [exact Hauth|]. split; [|exact Hr].
  apply (getValidAccessToken_fresh st' token (numberToString expiry) expiry);
    auto.
  subst expiry. lia.
Qed.

(** X20.  An expiry that [parseInt] cannot read is never reached: with
    such an entry stored, [isAuthenticated] is false, and yet
    [getValidAccessToken] hands out the stored token at any time, without
    a refresh. *)
Theorem getValidAccessToken_unreadable_expiry :
  forall (st : St) (token expires : string),
    localStorage st !! "spotify_access_token" = Some token -> token <> "" ->
    localStorage st !! "spotify_token_expires" = Some expires ->
    expires <> "" ->
    parseInt expires = None ->
    isAuthenticated st = false /\
    getValidAccessToken st = (Return (Some token), st).
Proof.
  intros st token expires Ht Ht' He He' Hp. split.
  - unfold isAuthenticated, before. rewrite Ht, He.
    rewrite (truthy_nonempty _ Ht'), (truthy_nonempty _ He'), Hp.
    reflexivity.
  - cbv [getValidAccessToken bind getItem dateNow]. rewrite Ht, He.
    rewrite (truthy_nonempty _ Ht'), (truthy_nonempty _ He').
    unfold reached. rewrite Hp. reflexivity.
Qed.

(** ** The exchange of the authorization code *)

(** X21.  When the token endpoint answers the exchange with an access
    token and a positive lifetime, and [parseInt] reads the stored expiry
    back, [exchangeCodeForToken] returns the answer after one request
    without a token, which carries the code and the stored verifier; the
    client is then authenticated, [getValidAccessToken] returns the new
    token, and the code verifier is gone. *)
Theorem exchangeCodeForToken_then_authenticated :
  forall (code : string) (st : St) (verifier : string) (ex : Exchange)
         (rest : list Exchange) (r : Response) (tokenData : Json)
         (token : string) (seconds : Z),
    sessionStorage st !! "spotify_code_verifier" = Some verifier ->
    verifier <> "" ->
    network st = ex :: rest ->
    reply ex = Some r ->
    (200 <= status r <= 299)%Z ->
    json r = Some tokenData ->
    access_token tokenData = Some token -> token <> "" ->
    expires_in tokenData = Some seconds -> (0 < seconds)%Z ->
    let expiry := (now st + took ex + seconds * 1000)%Z in
    numberToString expiry <> "" ->
    parseInt (numberToString expiry) = Some expiry ->
    exists st' request,
      exchangeCodeForToken code st = (Return tokenData, st') /\
      sent st' = request :: sent st /\
      url request = SPOTIFY_TOKEN_URL /\ authorization request = None /\
      ("code", code) ∈ form request /\
      ("code_verifier", verifier) ∈ form request /\
      isAuthenticated st' = true /\
      getValidAccessToken st' = (Return (Some token), st') /\
      sessionStorage st' !! "spotify_code_verifier" = None.
Proof.
  intros code st verifier ex rest r j token seconds Hv Hv' Hnet Hreply
         Hstatus Hjson Htok Htok' Hexp Hpos expiry Hstr Hparse.
  assert (Hok : negb (ok r) = false).
  { unfold ok. apply negb_false_iff, andb_true_iff.
    split; apply Z.leb_le; lia. }
  assert (Hrun : exists st',
            exchangeCodeForToken code st = (Return j, st') /\
            sent st' =
              {| url := SPOTIFY_TOKEN_URL; authorization := None;
                 form := [("client_id", clientId);
                          ("grant_type", "authorization_code");
                          ("code", code);
                          ("redirect_uri", redirectUri);
                          ("code_verifier", verifier)] |} :: sent st /\
            localStorage st' !! "spotify_access_token" = Some token /\
            localStorage st' !! "spotify_token_expires"
              = Some (numberToString expiry) /\
            sessionStorage st' !! "spotify_code_verifier" = None /\
            now st' = (now st + took ex)%Z).
  { cbv [exchangeCodeForToken bind getSessionItem]. rewrite Hv.
    rewrite (truthy_nonempty _ Hv'). unfold fetch. rewrite Hnet, Hreply.
    rewrite Hok. unfold readJson. rewrite Hjson.
    cbv [ret setItem dateNow removeSessionItem].
    cbn [localStorage sessionStorage now sent].
    rewrite Htok, Hexp. cbn [jsString default expiryString]. fold expiry.
    destruct (truthy (refresh_token j)) as [rt'|];
      cbv [ret setItem]; cbn [localStorage sessionStorage now sent];
      eexists; (split; [reflexivity|]);
      cbn [localStorage sessionStorage now sent];
      (split; [reflexivity|]).
    - split; [|split; [|split; [|reflexivity]]].
      + rewrite lookup_insert_ne, lookup_insert_ne by discriminate.
        apply lookup_insert_eq.
      + apply lookup_insert_eq.
      + apply lookup_delete_eq.
    - split; [|split; [|split; [|reflexivity]]].
      + rewrite lookup_insert_ne by discriminate. apply lookup_insert_eq.
      + apply lookup_insert_eq.
      + apply lookup_delete_eq. }
  destruct Hrun as (st' & Hrun & Hsent & Ha & He & Hs & Hnow).
  exists st'. eexists. split; [exact Hrun|]. split; [exact Hsent|].
  cbn [url authorization form].
  split; [reflexivity|]. split; [reflexivity|].
  split; [do 2 apply list_elem_of_further; apply list_elem_of_here|].
  split; [do 4 apply list_elem_of_further; apply list_elem_of_here|].
  assert (Hlt : (now st' < expiry)%Z) by (subst expiry; lia).
  split; [|split; [|exact Hs]].
  - unfold isAuthenticated, before. rewrite Ha, He.
    rewrite (truthy_nonempty _ Htok'), (truthy_nonempty _ Hstr).
    rewrite Hparse. now apply Z.ltb_lt.
  - apply (getValidAccessToken_fresh st' token (numberToString expiry)
             expiry); auto.
Qed.

(** X22.  An exchange that fails writes nothing: whatever the error, both
    storages are as they were, so no token is stored in part and the code
    verifier is still there. *)
Theorem exchangeCodeForToken_failure_keeps_storage :
  forall (code : string) (st st' : St) (e : Err),
    exchangeCodeForToken code st = (Raise e, st') ->
    localStorage st' = localStorage st /\
    sessionStorage st' = sessionStorage st.
Proof.
  intros code st st' e. cbv [exchangeCodeForToken bind getSessionItem].
  destruct (truthy _) as [v|]; [|cbv [raise]; intros [= _ <-]; auto].
  unfold fetch. destruct (network st) as [|ex rest];
    [intros [= _ <-]; auto|].
  destruct (reply ex) as [r|]; [|intros [= _ <-]; auto].
  destruct (negb (ok r)); [cbv [raise]; intros [= _ <-]; auto|].
  unfold readJson.
  destruct (json r) as [j|]; [|cbv [raise]; intros [= _ <-]; auto].
  cbv [ret setItem dateNow removeSessionItem].
  destruct (truthy (refresh_token j)); discriminate.
Qed.

End ClientFacts.

End SpotifyFacts.

(** * Properties of the video search's last resort *)

Module YouTubeFacts.

Import YouTube.

Lemma toInt32_shift (z : Z) : exists k, toInt32 z = (z + k * 2 ^ 32)%Z.
Proof.
  unfold toInt32. cbv zeta.
  pose proof (Z.div_mod z (2 ^ 32) ltac:(lia)) as Hz.
  destruct (z mod 2 ^ 32 <? 2 ^ 31)%Z.
  - exists (- (z / 2 ^ 32))%Z. lia.
  - exists (- (z / 2 ^ 32) - 1)%Z. lia.
Qed.

Lemma toInt32_congr (a b : Z) :
  (a mod 2 ^ 32 = b mod 2 ^ 32)%Z -> toInt32 a = toInt32 b.
Proof. unfold toInt32. now intros ->. Qed.

Lemma toInt32_range (z : Z) : (- 2 ^ 31 <= toInt32 z < 2 ^ 31)%Z.
Proof.
  unfold toInt32. cbv zeta.
  pose proof (Z.mod_pos_bound z (2 ^ 32) ltac:(lia)).
  destruct (Z.ltb_spec (z mod 2 ^ 32) (2 ^ 31)); lia.
Qed.

Lemma hashStep_base31 (hash char : Z) :
  hashStep hash char = toInt32 (31 * hash + char).
Proof.
  unfold hashStep, and32. cbv zeta. rewrite Z.land_diag.
  apply toInt32_congr. unfold shl. rewrite Z.shiftl_mul_pow2 by lia.
  destruct (toInt32_shift hash) as [k1 ->].
  destruct (toInt32_shift ((hash + k1 * 2 ^ 32) * 2 ^ 5)) as [k2 ->].
  replace ((hash + k1 * 2 ^ 32) * 2 ^ 5 + k2 * 2 ^ 32 - hash + char)%Z
    with (31 * hash + char + (32 * k1 + k2) * 2 ^ 32)%Z by lia.
  apply Z.mod_add. lia.
Qed.

Lemma fold_hashStep_base31 (str : list Z) :
  fold_left hashStep str 0%Z = toInt32 (base31 str).
Proof.
  unfold base31. induction str as [|char str IH] using rev_ind.
  - reflexivity.
  - rewrite !fold_left_app. cbn [fold_left]. rewrite IH, hashStep_base31.
    apply toInt32_congr.
    destruct (toInt32_shift
                (fold_left (fun acc c => (31 * acc + c)%Z) str 0%Z))
      as [k ->].
    match goal with
    | |- ((31 * (?p + _) + _) mod _ = _)%Z =>
        replace (31 * (p + k * 2 ^ 32) + char)%Z
          with (31 * p + char + (31 * k) * 2 ^ 32)%Z by lia
    end.
    apply Z.mod_add. lia.
Qed.

(** X23.  [simpleHash] is the base-31 polynomial of the code units, first
    unit first, wrapped to a signed 32-bit integer and made positive: a
    number from 0 to 2^31, the bound included. *)
Theorem simpleHash_base31_wrapped :
  forall str : list Z,
    simpleHash str = Z.abs (toInt32 (base31 str)) /\
    (0 <= simpleHash str <= 2 ^ 31)%Z.
Proof.
  intros str. unfold simpleHash. rewrite fold_hashStep_base31.
  split; [reflexivity|].
  pose proof (toInt32_range (base31 str)). lia.
Qed.

(** X24.  The last resort always answers: whatever artist and title are,
    [searchViaAlternativeMethod] returns one of the ten test ids, never
    [undefined]. *)
Theorem searchViaAlternativeMethod_returns_test_id :
  forall (toLowerCase : list Z -> list Z) (artist title : list Z),
    exists videoId,
      searchViaAlternativeMethod toLowerCase artist title = Some videoId /\
      videoId ∈ testVideoIds.
Proof.
  intros toLowerCase artist title. unfold searchViaAlternativeMethod.
  cbv zeta.
  set (hash := simpleHash _).
  assert (Hhash : (0 <= hash)%Z) by (unfold hash, simpleHash; lia).
  change (Z.of_nat (length testVideoIds)) with 10%Z.
  pose proof (Z.rem_bound_pos hash 10 Hhash ltac:(lia)) as Hindex.
  destruct (Z.ltb_spec (Z.rem hash 10) 0); [lia|].
  destruct (lookup_lt_is_Some_2 testVideoIds (Z.to_nat (Z.rem hash 10)))
    as [videoId Hid].
  { cbn [length testVideoIds]. lia. }
  exists videoId. split; [exact Hid|].
  eapply list_elem_of_lookup_2. exact Hid.
Qed.

End YouTubeFacts.

(** * The properties at the examples *)

(** X6 at [Ex.track]: the second call, 4 s after the first, with an
    unreachable provider. *)
Lemma detectDrop_second_call_hits_cache_witness :
  exists r,
    detectDrop Ex.showNumber Ex.track 3 20000 Ex2.first
      = (Ok r, snd (detectDrop Ex.showNumber Ex.track 3 20000 Ex2.first)) /\
    detectDrop Ex.showNumber Ex.track 3 20000 Ex2.later = (Ok r, Ex2.later).
Proof.
  eexists. split.
  - run_to_value.
  - eapply (detectDrop_second_call_hits_cache Ex.showNumber Ex.track 3 20000
              Ex2.first _ Ex2.later None).
    + reflexivity.
    + reflexivity.
    + reflexivity.
    + run_to_value.
    + discriminate.
    + reflexivity.
    + reflexivity.
    + reflexivity.
Defined.

(** X7 at [Ex.track]: the provider rejects twice, 1 s apart. *)
Lemma detectDrop_retries_after_error_witness :
  requests
    (snd (detectDrop Ex.showNumber Ex.track 3 20000
            (Ex.world ∅ true (Throw RequestError) 6000))) =
  endpointOf Ex.track ::
    requests (Ex.world ∅ true (Throw RequestError) 6000).
Proof.
  eapply (detectDrop_retries_after_error Ex.showNumber Ex.track 3 20000
            (Ex.world ∅ true (Throw RequestError) 5000) _
            (Ex.world ∅ true (Throw RequestError) 6000) None).
  - reflexivity.
  - reflexivity.
  - run_to_value.
  - reflexivity.
  - reflexivity.
  - reflexivity.
  - discriminate.
Defined.

(** X8 at [Ex.track], with a section at 0 s, a segment at 10 s and no
    bars. *)
Lemma analyzeForDrop_nothing_in_window_witness :
  analyzeForDrop Ex.track Ex2.earlyAnalysis 3 20000 Ex2.first =
  (Ok {| trackId := "t1";
         dropStart := 60000;
         confidence := 0.2%R;
         method := "30‑percent";
         previewLength := 20000;
         analysisTimestamp := 5000 |}, Ex2.first).
Proof.
  apply (analyzeForDrop_nothing_in_window Ex.track Ex2.earlyAnalysis 3 20000
           Ex2.first Ex2.earlySections Ex2.earlySegments).
  - reflexivity.
  - reflexivity.
  - intros sec Hsec. apply list_elem_of_singleton in Hsec as ->.
    intros [Hstart _]. apply Hstart. reflexivity.
  - intros seg Hseg. apply list_elem_of_singleton in Hseg as ->.
    intros [Hstart _]. apply Hstart. reflexivity.
Defined.

(** X9 at [Ex.track], with a weak bar only: the section hit at 35 s is
    kept. *)
Lemma analyzeForDrop_unsnapped_in_window_witness :
  exists r,
    analyzeForDrop Ex.track (Ex.analysis Ex2.weakBars) 3 20000 Ex2.first
      = (Ok r, Ex2.first) /\
    (searchStartMs (duration_ms Ex.track) - 1 < inject_Z (dropStart r))%Q /\
    (inject_Z (dropStart r) <= searchEndMs (duration_ms Ex.track))%Q.
Proof.
  eexists. split.
  - run_to_value.
  - eapply (analyzeForDrop_unsnapped_in_window Ex.track
              (Ex.analysis Ex2.weakBars) 3 20000 Ex2.first Ex2.first
              Ex2.weakBars).
    + reflexivity.
    + intros b Hb. apply list_elem_of_singleton in Hb as ->. reflexivity.
    + run_to_value.
    + discriminate.
Defined.

(** X11 on the examples, between the thresholds -12 dB and -6 dB. *)
Lemma scanners_monotone_in_threshold_witness :
  (forall c,
     findDropInSections Ex.tiedSections 30000 140000 (-6) = Some c ->
     exists c',
       findDropInSections Ex.tiedSections 30000 140000 (-12) = Some c' /\
       (Cand.score c <= Cand.score c')%Q) /\
  (forall c,
     findDropInSegments Ex.risingSegments 30000 140000 (-6) = Some c ->
     exists c',
       findDropInSegments Ex.risingSegments 30000 140000 (-12) = Some c' /\
       (Cand.score c <= Cand.score c')%Q).
Proof.
  apply (scanners_monotone_in_threshold Ex.tiedSections Ex.risingSegments
           30000 140000 (-12) (-6)).
  discriminate.
Defined.

(** X12 for one track and two spellings of the same offset. *)
Lemma getCacheKey_separates_witness :
  "t1" = "t1" /\
  Ex.showNumber 3 = Ex.showNumber (6 # 2) /\
  Ex.showNumber 20000 = Ex.showNumber 20000.
Proof.
  apply (getCacheKey_separates Ex.showNumber "t1" "t1" 3 (6 # 2)
           20000 20000); reflexivity.
Defined.

Module SpotifyWitnesses.

Import Spotify SpotifyVocabulary SpotifyEx.

(** X15 for the signed-in client. *)
Lemma getValidAccessToken_when_authenticated_witness :
  exists token,
    localStorage (signedIn []) !! "spotify_access_token" = Some token /\
    getValidAccessToken (signedIn []) = (Return (Some token), signedIn []).
Proof.
  apply (SpotifyFacts.getValidAccessToken_when_authenticated (signedIn [])).
  vm_compute. reflexivity.
Defined.

(** X16 for a request answered with status 200. *)
Lemma spotifyApiCall_returns_ok_body_witness :
  exists ex r,
    ex ∈ network (signedIn [answer 200 (Some body)]) /\
    reply ex = Some r /\
    (200 <= status r <= 299)%Z /\ json r = Some body.
Proof.
  apply (SpotifyFacts.spotifyApiCall_returns_ok_body "/me"
           (signedIn [answer 200 (Some body)])
           (snd (spotifyApiCall "/me" (signedIn [answer 200 (Some body)])))
           body).
  vm_compute. reflexivity.
Defined.

(** X17 for a request answered with status 401, followed by a refresh
    that the token endpoint refuses. *)
Lemma spotifyApiCall_unauthorized_witness :
  let run :=
    spotifyApiCall "/me" (signedIn [answer 401 None; answer 400 None]) in
  (exists document, fst run = Return document) \/
  (fst run = Raise AuthenticationFailed /\
   isAuthenticated (snd run) = false /\
   forall k, k ∈ tokenKeys -> localStorage (snd run) !! k = None).
Proof.
  apply (SpotifyFacts.spotifyApiCall_unauthorized "/me"
           (signedIn [answer 401 None; answer 400 None])
           (answer 401 None) [answer 400 None]
           (response 401 None)).
  - vm_compute. reflexivity.
  - reflexivity.
  - reflexivity.
  - reflexivity.
Defined.

(** X18 for a request answered with status 404. *)
Lemma spotifyApiCall_error_status_witness :
  exists token st',
    localStorage (signedIn [answer 404 (Some notFound)])
      !! "spotify_access_token" = Some token /\
    spotifyApiCall "/me" (signedIn [answer 404 (Some notFound)]) =
      (Raise (ApiError 404 "Not found"), st') /\
    sent st' = apiRequest "/me" (Some token) :: [] /\
    localStorage st' = localStorage (signedIn [answer 404 (Some notFound)]) /\
    network st' = [].
Proof.
  apply (SpotifyFacts.spotifyApiCall_error_status "/me"
           (signedIn [answer 404 (Some notFound)])
           (answer 404 (Some notFound)) []
           (response 404 (Some notFound))).
  - vm_compute. reflexivity.
  - reflexivity.
  - reflexivity.
  - unfold response. cbn [status]. lia.
  - discriminate.
Defined.

(** X19 for a refresh answered with a token that lasts an hour. *)
Lemma refreshAccessToken_then_valid_witness :
  exists st',
    refreshAccessToken (signedIn [answer 200 (Some freshToken)])
      = (Return (Some "tokenB"), st') /\
    isAuthenticated st' = true /\
    getValidAccessToken st' = (Return (Some "tokenB"), st') /\
    localStorage st' !! "spotify_refresh_token" = Some "refreshA".
Proof.
  apply (SpotifyFacts.refreshAccessToken_then_valid
           (signedIn [answer 200 (Some freshToken)]) "refreshA"
           (answer 200 (Some freshToken)) []
           (response 200 (Some freshToken)) freshToken
           "tokenB" 3600).
  - vm_compute. reflexivity.
  - discriminate.
  - reflexivity.
  - reflexivity.
  - unfold response. cbn [status]. lia.
  - reflexivity.
  - reflexivity.
  - discriminate.
  - reflexivity.
  - lia.
  - vm_compute. discriminate.
  - vm_compute. reflexivity.
Defined.

(** X20 for an expiry stored as NaN. *)
Lemma getValidAccessToken_unreadable_expiry_witness :
  isAuthenticated noExpiry = false /\
  getValidAccessToken noExpiry = (Return (Some "tokenA"), noExpiry).
Proof.
  apply (SpotifyFacts.getValidAccessToken_unreadable_expiry noExpiry
           "tokenA" "NaN").
  - vm_compute. reflexivity.
  - discriminate.
  - vm_compute. reflexivity.
  - discriminate.
  - reflexivity.
Defined.

(** X21 for an exchange answered with a token that lasts an hour. *)
Lemma exchangeCodeForToken_then_authenticated_witness :
  exists st' request,
    exchangeCodeForToken "codeA" (signingIn [answer 200 (Some freshToken)])
      = (Return freshToken, st') /\
    sent st' = request :: [] /\
    url request = SPOTIFY_TOKEN_URL /\ authorization request = None /\
    ("code", "codeA") ∈ form request /\
    ("code_verifier", "verifierA") ∈ form request /\
    isAuthenticated st' = true /\
    getValidAccessToken st' = (Return (Some "tokenB"), st') /\
    sessionStorage st' !! "spotify_code_verifier" = None.
Proof.
  apply (SpotifyFacts.exchangeCodeForToken_then_authenticated "codeA"
           (signingIn [answer 200 (Some freshToken)]) "verifierA"
           (answer 200 (Some freshToken)) []
           (response 200 (Some freshToken)) freshToken
           "tokenB" 3600).
  - vm_compute. reflexivity.
  - discriminate.
  - reflexivity.
  - reflexivity.
  - unfold response. cbn [status]. lia.
  - reflexivity.
  - reflexivity.
  - discriminate.
  - reflexivity.
  - lia.
  - vm_compute. discriminate.
  - vm_compute. reflexivity.
Defined.

(** X22 for an exchange that the token endpoint refuses. *)
Lemma exchangeCodeForToken_failure_keeps_storage_witness :
  let st' := snd (exchangeCodeForToken "codeA" (signingIn [answer 400 None])) in
  localStorage st' = localStorage (signingIn [answer 400 None]) /\
  sessionStorage st' = sessionStorage (signingIn [answer 400 None]).
Proof.
  apply (SpotifyFacts.exchangeCodeForToken_failure_keeps_storage "codeA"
           (signingIn [answer 400 None]) _ (ExchangeFailed 400)).
  vm_compute. reflexivity.
Defined.

End SpotifyWitnesses.
